(** * Phase Lag Index and Unbiased Squared Phase Lag Index (mne-cpp, connectivity library)

    A shallow embedding of [phaselagindex.cpp] and
    [unbiasedsquaredphaselagindex.cpp]:

    - [PhaseLagIndex::computePLI], [PhaseLagIndex::phaseLagIndex],
    - [UnbiasedSquaredPhaseLagIndex::computeUnbiasedSquaredPLI],
      [UnbiasedSquaredPhaseLagIndex::unbiasedSquaredPhaseLagIndex].

    Conventions of the embedding.

    - A C++ [double] (and [float]) is an exact rational extended with the
      IEEE special values: rounding and the sign of zero are not modelled,
      division by zero and the propagation of infinities and NaN are.
    - An [int] is an integer of [Z]; the lengths and indices at hand stay far
      below [2^31], and no operation of the two files can wrap around.
    - An Eigen matrix is the list of its rows; a [QList]/[QVector] is a list.
    - An access that the C++ code guards with an assertion ([QList::at],
      [operator[]], Eigen's [row], the size check of an Eigen assignment,
      the reduction of an empty block in Eigen's [mean]) yields [None] when
      the assertion would fail: the functions live in the [option] monad.
    - Line numbers refer to
      [src/libraries/connectivity/metrics/unbiasedsquaredphaselagindex.cpp],
      which holds both source files one after the other.
    - The routines of [utils/spectral.h] ([Spectral::generateTapers],
      [Spectral::computeTaperedSpectra], [Spectral::csdFromTaperedSpectra])
      are not part of the two files; they are parameters of the development. *)

From Stdlib Require Import ZArith QArith Qcanon Qcabs Lia Lqa List String.
From stdpp Require Import base option list.

Local Open Scope Z_scope.

(** ** Floating-point values *)

Module Dbl.

Inductive double : Type :=
| Fin (q : Qc)
| PInf
| NInf
| NaN.

Definition of_Z (z : Z) : double := Fin (Q2Qc (inject_Z z)).
Definition of_nat (n : nat) : double := of_Z (Z.of_nat n).

Definition zero : double := of_Z 0.
Definition one : double := of_Z 1.

Definition Qcltb (x y : Qc) : bool :=
  match (x ?= y)%Qc with Lt => true | _ => false end.

Definition Qceqb (x y : Qc) : bool :=
  match (x ?= y)%Qc with Eq => true | _ => false end.

(** [a < b] on doubles; every comparison with NaN is false. *)
Definition ltb (x y : double) : bool :=
  match x, y with
  | NaN, _ | _, NaN => false
  | Fin a, Fin b => Qcltb a b
  | NInf, NInf => false
  | NInf, _ => true
  | _, NInf => false
  | PInf, _ => false
  | Fin _, PInf => true
  end.

Definition neg (x : double) : double :=
  match x with
  | Fin a => Fin (- a)%Qc
  | PInf => NInf
  | NInf => PInf
  | NaN => NaN
  end.

Definition add (x y : double) : double :=
  match x, y with
  | NaN, _ | _, NaN => NaN
  | Fin a, Fin b => Fin (a + b)%Qc
  | PInf, NInf | NInf, PInf => NaN
  | PInf, _ | _, PInf => PInf
  | NInf, _ | _, NInf => NInf
  end.

Definition sub (x y : double) : double := add x (neg y).

(** The sign of a finite value as a comparison result. *)
Definition Qcsgn (a : Qc) : comparison := (a ?= 0)%Qc.

(** An infinity of the given sign; a zero sign is the invalid operation. *)
Definition inf_of (s : comparison) : double :=
  match s with Gt => PInf | Lt => NInf | Eq => NaN end.

Definition sgn_mul (s t : comparison) : comparison :=
  match s, t with
  | Eq, _ | _, Eq => Eq
  | Gt, Gt | Lt, Lt => Gt
  | _, _ => Lt
  end.

Definition mul (x y : double) : double :=
  match x, y with
  | NaN, _ | _, NaN => NaN
  | Fin a, Fin b => Fin (a * b)%Qc
  | Fin a, PInf | PInf, Fin a => inf_of (Qcsgn a)
  | Fin a, NInf | NInf, Fin a => inf_of (sgn_mul (Qcsgn a) Lt)
  | PInf, PInf | NInf, NInf => PInf
  | PInf, NInf | NInf, PInf => NInf
  end.

(** IEEE division: a finite non-zero value over zero is an infinity, zero
    over zero and infinity over infinity are NaN. *)
Definition div (x y : double) : double :=
  match x, y with
  | NaN, _ | _, NaN => NaN
  | Fin a, Fin b =>
      if Qceqb b 0 then inf_of (Qcsgn a) else Fin (a / b)%Qc
  | Fin _, (PInf | NInf) => zero
  | PInf, Fin b => if Qcltb b 0 then NInf else PInf
  | NInf, Fin b => if Qcltb b 0 then PInf else NInf
  | (PInf | NInf), (PInf | NInf) => NaN
  end.

Definition abs (x : double) : double :=
  match x with
  | Fin a => Fin (Qcabs a)
  | PInf | NInf => PInf
  | NaN => NaN
  end.

Definition of_bool (b : bool) : double := if b then one else zero.

(** Eigen's [scalar_sign_op] on a real scalar: [(a > 0) - (a < 0)]. *)
Definition sign (a : double) : double :=
  sub (of_bool (ltb zero a)) (of_bool (ltb a zero)).

(** Eigen's [array().square()]. *)
Definition square (a : double) : double := mul a a.

(** The value of [sign a] as an integer. *)
Definition signZ (a : double) : Z :=
  Z.b2z (ltb zero a) - Z.b2z (ltb a zero).

(** The sum of a list of doubles. *)
Definition sum (l : list double) : double := foldr add zero l.

End Dbl.

Export Dbl.

(** ** Eigen matrices and vectors *)

Record complex : Type := Complex { real : double; imag : double }.

Abbreviation VectorXd := (list double) (only parsing).
Abbreviation RowVectorXd := (list double) (only parsing).
Abbreviation RowVectorXcd := (list complex) (only parsing).
Abbreviation MatrixXd := (list (list double)) (only parsing).
Abbreviation MatrixXcd := (list (list complex)) (only parsing).

Module Eigen.

(** [m.rows()] and [m.cols()] of a matrix given by its rows; a matrix
    without rows is taken to have no column. *)
Definition rows {A} (m : list (list A)) : nat := length m.

Definition cols {A} (m : list (list A)) : nat :=
  match m with
  | [] => 0%nat
  | r :: _ => length r
  end.

(** [MatrixXd::Zero(r, c)]. *)
Definition Zero (r c : nat) : MatrixXd := replicate r (replicate c zero).

Definition cwise {A B} (f : A → B) (m : list (list A)) : list (list B) :=
  map (map f) m.

Definition cwiseSign (m : MatrixXd) : MatrixXd := cwise sign m.
Definition cwiseAbs (m : MatrixXd) : MatrixXd := cwise abs m.
Definition imagPart (m : MatrixXcd) : MatrixXd := cwise imag m.

(** [a + b]; the two operands have the same size wherever the code adds. *)
Definition plus (a b : MatrixXd) : MatrixXd := zip_with (zip_with add) a b.

(** [m / s] for a scalar [s]. *)
Definition divScalar (m : MatrixXd) (s : double) : MatrixXd :=
  cwise (λ x, div x s) m.

(** [r.mean()]: the sum of the coefficients over their number. Eigen
    computes the sum by [redux], which asserts that the block is not
    empty. *)
Definition mean (r : RowVectorXd) : option double :=
  match r with
  | [] => None
  | _ :: _ => Some (div (foldl add zero r) (of_nat (length r)))
  end.

(** [m.row(k) = r] into a matrix with [n] columns: Eigen asserts that [r]
    has [n] coefficients. *)
Definition assignRow {A} (n : nat) (r : list A) : option (list A) :=
  if decide (length r = n) then Some r else None.

End Eigen.

Import Eigen.

(** [tabulate n g] is the list [g 0; ...; g (n - 1)]. *)
Definition tabulate {A} (n : nat) (g : nat → A) : list A := map g (seq 0 n).

(** The tensor of [n] matrices of [n] rows and [c] columns with the given
    entries. *)
Definition tensor (n c : nat) (e : nat → nat → nat → double) : list MatrixXd :=
  tabulate n (λ i, tabulate n (λ k, tabulate c (λ f, e i k f))).

(** ** Loops in the option monad *)

Fixpoint foldlM {A B} (f : A → B → option A) (a : A) (l : list B) : option A :=
  match l with
  | [] => Some a
  | x :: l' => a' ← f a x; foldlM f a' l'
  end.

(** ** The spectral routines of [utils/spectral.h] *)

Class Spectral : Type := {
  (** [Spectral::generateTapers(iSignalLength, sWindowType)]: the taper
      matrix and the taper weights. *)
  generateTapers : Z → string → MatrixXd * VectorXd;
  (** [Spectral::computeTaperedSpectra(vecData, matTaper, iNfft)]. *)
  computeTaperedSpectra : RowVectorXd → MatrixXd → Z → MatrixXcd;
  (** [Spectral::csdFromTaperedSpectra(matTapSpectrumSeed,
      matTapSpectrumTarget, vecTapWeightsSeed, vecTapWeightsTarget, iNfft,
      dSampFreq)]. *)
  csdFromTaperedSpectra :
    MatrixXcd → MatrixXcd → VectorXd → VectorXd → Z → double → RowVectorXcd
}.

(** ** [PhaseLagIndex::computePLI] *)

Section PLI.

Context {spectral : Spectral}.

(** Lines 299-303: the signal length is the column count of the first
    trial, and the FFT length is raised to it, once. *)
Definition fftLength (iNfft iSignalLength : Z) : Z :=
  if iNfft <? iSignalLength then iSignalLength else iNfft.

(** Line 310: [int(floor(iNfft / 2.0)) + 1]. *)
Definition numFreqs (iNfft : Z) : Z := iNfft / 2 + 1.

(** Lines 320-323: the mean of every row is subtracted from that row. *)
Definition removeMean (matData : MatrixXd) : option MatrixXd :=
  mapM (λ r, mu ← mean r; Some (map (λ x, sub x mu) r)) matData.

(** Lines 326-330: the tapered spectrum of each of the [iNRows] channels. *)
Definition tapSpectra (tapers : MatrixXd * VectorXd) (iNfft : Z) (iNRows : nat)
    (matInputData : MatrixXd) : option (list MatrixXcd) :=
  mapM (λ j, r ← matInputData !! j;
             Some (computeTaperedSpectra r tapers.1 iNfft)) (seq 0 iNRows).

(** Lines 334-338: the cross-spectra of reference channel [j] with every
    channel [k], one row per [k]. *)
Definition csdMatrix (tapers : MatrixXd * VectorXd) (iNfft : Z)
    (iNRows iNFreqs : nat) (vecTapSpectra : list MatrixXcd) (j : nat)
    : option MatrixXcd :=
  sj ← vecTapSpectra !! j;
  mapM (λ k, sk ← vecTapSpectra !! k;
             assignRow iNFreqs
               (csdFromTaperedSpectra sj sk tapers.2 tapers.2 iNfft one))
       (seq 0 iNRows).

(** Lines 318-341, the body of the loop over trials: one trial is added to
    the accumulators. *)
Definition accumulateTrial (tapers : MatrixXd * VectorXd) (iNfft : Z)
    (iNRows iNFreqs : nat) (vecCsdAvg : list MatrixXd) (matData : MatrixXd)
    : option (list MatrixXd) :=
  matInputData ← removeMean matData;
  vecTapSpectra ← tapSpectra tapers iNfft iNRows matInputData;
  foldlM (λ vecCsdAvg j,
            matCsd ← csdMatrix tapers iNfft iNRows iNFreqs vecTapSpectra j;
            a ← vecCsdAvg !! j;
            Some (<[j := plus a (cwiseSign (imagPart matCsd))]> vecCsdAvg))
         vecCsdAvg (seq 0 iNRows).

Definition computePLI (matDataList : list MatrixXd) (iNfft : Z)
    (sWindowType : string) : option (list MatrixXd) :=
  first ← matDataList !! 0%nat;
  let iSignalLength := Z.of_nat (cols first) in
  let iNfft := fftLength iNfft iSignalLength in
  let tapers := generateTapers iSignalLength sWindowType in
  let iNRows := rows first in
  let iNFreqs := Z.to_nat (numFreqs iNfft) in
  let vecCsdAvg := replicate iNRows (Zero iNRows iNFreqs) in
  vecCsdAvg ← foldlM (accumulateTrial tapers iNfft iNRows iNFreqs)
                     vecCsdAvg matDataList;
  mapM (λ i, a ← vecCsdAvg !! i;
             Some (divScalar (cwiseAbs a) (of_nat (length matDataList))))
       (seq 0 iNRows).

(** *** The quantities the statements about [computePLI] speak of *)

(** The cross-spectrum of channels [i] and [k] of one trial, as the loop
    body computes it (lines 320-323, 328 and 336-337): row [k] of [matCsd]
    for the reference channel [i]. *)
Definition csdRow (tapers : MatrixXd * VectorXd) (iNfft : Z)
    (matData : MatrixXd) (i k : nat) : option RowVectorXcd :=
  matInputData ← removeMean matData;
  ri ← matInputData !! i;
  rk ← matInputData !! k;
  Some (csdFromTaperedSpectra (computeTaperedSpectra ri tapers.1 iNfft)
                              (computeTaperedSpectra rk tapers.1 iNfft)
                              tapers.2 tapers.2 iNfft one).

(** Its coefficient at frequency bin [f]. *)
Definition csdCoeff (tapers : MatrixXd * VectorXd) (iNfft : Z)
    (matData : MatrixXd) (i k f : nat) : option complex :=
  c ← csdRow tapers iNfft matData i k; c !! f.

(** A run of [computePLI] on a list whose first trial is [first] meets the
    preconditions of the code when every trial has (at least) the channels
    of the first one, every row of every trial has at least one sample, and
    every cross-spectrum that [csdFromTaperedSpectra] returns during the run
    has one coefficient per frequency bin. *)
Definition validRun (first : MatrixXd) (matDataList : list MatrixXd)
    (iNfft : Z) (sWindowType : string) : Prop :=
  matDataList !! 0%nat = Some first ∧
  Forall (λ m, (rows first ≤ rows m)%nat) matDataList ∧
  Forall (λ m : MatrixXd, Forall (λ r, r ≠ []) m) matDataList ∧
  let iSignalLength := Z.of_nat (cols first) in
  let iNfft := fftLength iNfft iSignalLength in
  ∀ m i k c,
    m ∈ matDataList → (i < rows first)%nat → (k < rows first)%nat →
    csdRow (generateTapers iSignalLength sWindowType) iNfft m i k = Some c →
    length c = Z.to_nat (numFreqs iNfft).

(** The contract of the cross-spectrum on a run: swapping the two channels
    conjugates the cross-spectrum, so the imaginary part changes sign. *)
Definition csdConjugate (first : MatrixXd) (matDataList : list MatrixXd)
    (iNfft : Z) (sWindowType : string) : Prop :=
  let iSignalLength := Z.of_nat (cols first) in
  let iNfft := fftLength iNfft iSignalLength in
  ∀ m i k f z z',
    m ∈ matDataList →
    csdCoeff (generateTapers iSignalLength sWindowType) iNfft m i k f = Some z →
    csdCoeff (generateTapers iSignalLength sWindowType) iNfft m k i f = Some z' →
    imag z' = neg (imag z).

(** The matrix that [removeMean] returns when it returns. *)
Definition demeaned (matData : MatrixXd) : MatrixXd :=
  map (λ r, map (λ x, sub x (div (foldl add zero r) (of_nat (length r)))) r)
      matData.

(** The same quantities as total functions of the indices, for the closed
    form of the accumulators: the spectrum of channel [j], the cross-spectrum
    of the channels [j] and [k], and the sign of its imaginary part at bin
    [f]. They agree with [csdRow] and [csdCoeff] on the indices in range of a
    trial whose rows have samples. *)
Definition spectrumAt (tapers : MatrixXd * VectorXd) (iNfft : Z)
    (matData : MatrixXd) (j : nat) : MatrixXcd :=
  computeTaperedSpectra (nth j (demeaned matData) []) tapers.1 iNfft.

Definition csdAt (tapers : MatrixXd * VectorXd) (iNfft : Z)
    (matData : MatrixXd) (j k : nat) : RowVectorXcd :=
  csdFromTaperedSpectra (spectrumAt tapers iNfft matData j)
                        (spectrumAt tapers iNfft matData k)
                        tapers.2 tapers.2 iNfft one.

Definition coeffAt (tapers : MatrixXd * VectorXd) (iNfft : Z)
    (matData : MatrixXd) (j k f : nat) : complex :=
  nth f (csdAt tapers iNfft matData j k) (Complex NaN NaN).

Definition signAt (tapers : MatrixXd * VectorXd) (iNfft : Z)
    (matData : MatrixXd) (j k f : nat) : Z :=
  signZ (imag (coeffAt tapers iNfft matData j k f)).

(** The sum over the trials of the signs at [(j, k, f)]. *)
Definition signSum (tapers : MatrixXd * VectorXd) (iNfft : Z)
    (matDataList : list MatrixXd) (j k f : nat) : Z :=
  foldr Z.add 0 (map (λ m, signAt tapers iNfft m j k f) matDataList).

(** What the loop body needs of one trial. *)
Definition trialOK (tapers : MatrixXd * VectorXd) (iNfft : Z)
    (iNRows iNFreqs : nat) (m : MatrixXd) : Prop :=
  (iNRows ≤ rows m)%nat ∧
  Forall (λ r, r ≠ []) m ∧
  ∀ j k, (j < iNRows)%nat → (k < iNRows)%nat →
         length (csdAt tapers iNfft m j k) = iNFreqs.

(** Entry [(i, k, f)] of a connectivity tensor. *)
Definition entry (v : list MatrixXd) (i k f : nat) : option double :=
  m ← v !! i; r ← m !! k; r !! f.

(** ** [UnbiasedSquaredPhaseLagIndex::computeUnbiasedSquaredPLI] *)

(** Line 150: [(double(iNTrials) * p^2 - 1.0) / double(iNTrials - 1)]. *)
Definition unbias (iNTrials : Z) (p : double) : double :=
  div (sub (mul (of_Z iNTrials) (square p)) one) (of_Z (iNTrials - 1)).

Definition computeUnbiasedSquaredPLI (matDataList : list MatrixXd) (iNfft : Z)
    (sWindowType : string) : option (list MatrixXd) :=
  first ← matDataList !! 0%nat;
  let iNRows := rows first in
  let iNTrials := Z.of_nat (length matDataList) in
  vecUnbiasedSquaredPLI ← computePLI matDataList iNfft sWindowType;
  foldlM (λ vec j,
            m ← vec !! j;
            Some (<[j := cwise (unbias iNTrials) m]> vec))
         vecUnbiasedSquaredPLI (seq 0 iNRows).

End PLI.

(** ** The network *)

(** A node position: the three coefficients of a [RowVectorXf]. *)
Abbreviation Vert := (double * double * double)%type (only parsing).

(** [MatrixX3f]: one position per row. *)
Abbreviation MatrixX3f := (list (double * double * double)) (only parsing).

(** Modelled from the spec: the classes [Network], [NetworkNode] and
    [NetworkEdge] of [network/network.h], [network/networknode.h] and
    [network/networkedge.h] are not among the source files. The network is an
    arena: it owns the nodes and the edges in the order of their insertion, a
    shared pointer to a node or to an edge is its index in the arena, an edge
    holds the pointers to its two end nodes and its weights, and a node holds
    its index and its position. *)
Record NetworkEdge : Type := mkEdge {
  startNode : nat;
  endNode : nat;
  matWeight : list double
}.

Record NetworkNode : Type := mkNode {
  nodeId : nat;
  nodeVert : double * double * double
}.

Record Network : Type := mkNetwork {
  netName : string;
  netNodes : list NetworkNode;
  netEdges : list NetworkEdge
}.

Module Net.

(** [Network finalNetwork(name)]. *)
Definition new (name : string) : Network := mkNetwork name [] [].

(** [new NetworkNode(i, rowVert)]. *)
Definition newNode (i : nat) (rowVert : Vert) : NetworkNode :=
  mkNode i rowVert.

(** [finalNetwork.append(node)]. *)
Definition appendNode (net : Network) (n : NetworkNode) : Network :=
  mkNetwork (netName net) (netNodes net ++ [n]) (netEdges net).

(** Lines 126-129 and 283-286: the edge between the nodes [getNodes()[i]]
    and [getNodes()[j]] is created, handed to the node [getNodeAt(i)] and
    appended to the network. The three accesses to the nodes are in range
    or fail; the network of the spec keeps the edges in its flat collection
    only, so the call [getNodeAt(i)->append(pEdge)] leaves the index and the
    position of the node as they are. *)
Definition addEdge (net : Network) (i j : nat) (w : list double)
    : option Network :=
  _ ← netNodes net !! i;
  _ ← netNodes net !! j;
  _ ← netNodes net !! i;
  Some (mkNetwork (netName net) (netNodes net)
                  (netEdges net ++ [mkEdge i j w])).

End Net.

Section Assembly.

Context {spectral : Spectral}.

(** [RowVectorXf::Zero(3)]. *)
Definition zeroVert : Vert := (zero, zero, zero).

(** Lines 109-113 and 266-270: [rowVert] is overwritten with row [i] of
    [matVert] when there is such a row, and keeps its value otherwise. The
    row access is in range under the guard. *)
Definition updateVert (matVert : MatrixX3f) (i : nat) (rowVert : Vert) : Vert :=
  if negb (length matVert =? 0)%nat && (i <? length matVert)%nat
  then default rowVert (matVert !! i)
  else rowVert.

(** Lines 105-116 and 262-273: [rowVert] is declared before the loop over the
    channels and is part of its state. *)
Definition createNodes (matVert : MatrixX3f) (rows : nat) (net : Network)
    : Vert * Network :=
  foldl (λ '(rowVert, net) i,
           let rowVert := updateVert matVert i rowVert in
           (rowVert, Net.appendNode net (Net.newNode i rowVert)))
        (zeroVert, net) (seq 0 rows).

(** Lines 122-131 and 279-288: one edge per pair of a tensor entry [i] and a
    channel [j], with row [j] of matrix [i] as its weights. *)
Definition addEdges (vec : list MatrixXd) (rows : nat) (net : Network)
    : option Network :=
  foldlM (λ net i,
            foldlM (λ net j,
                      m ← vec !! i;
                      w ← m !! j;
                      Net.addEdge net i j w)
                   net (seq 0 rows))
         net (seq 0 (length vec)).

Definition phaseLagIndex (matDataList : list MatrixXd) (matVert : MatrixX3f)
    (iNfft : Z) (sWindowType : string) : option Network :=
  let finalNetwork := Net.new "Phase Lag Index" in
  match matDataList with
  | [] => Some finalNetwork
  | first :: _ =>
      let rows := rows first in
      let '(_, finalNetwork) := createNodes matVert rows finalNetwork in
      vecPLI ← computePLI matDataList iNfft sWindowType;
      first' ← matDataList !! 0%nat;
      addEdges vecPLI (Eigen.rows first') finalNetwork
  end.

Definition unbiasedSquaredPhaseLagIndex (matDataList : list MatrixXd)
    (matVert : MatrixX3f) (iNfft : Z) (sWindowType : string) : option Network :=
  let finalNetwork := Net.new "Unbiased Squared Phase Lag Index" in
  match matDataList with
  | [] => Some finalNetwork
  | first :: _ =>
      let rows := rows first in
      let '(_, finalNetwork) := createNodes matVert rows finalNetwork in
      vecUnbiasedSquaredPLI ←
        computeUnbiasedSquaredPLI matDataList iNfft sWindowType;
      first' ← matDataList !! 0%nat;
      addEdges vecUnbiasedSquaredPLI (Eigen.rows first') finalNetwork
  end.

End Assembly.

(** The value of [rowVert] after [n] iterations of the loop over the
    channels: node [i] is created with [vertState matVert (S i)]. *)
Fixpoint vertState (matVert : MatrixX3f) (n : nat) : Vert :=
  match n with
  | O => zeroVert
  | S i => updateVert matVert i (vertState matVert i)
  end.

(** The end points of an edge. *)
Definition endpoints (e : NetworkEdge) : nat * nat := (startNode e, endNode e).

(** Two networks have the same graph structure: as many nodes, with the same
    indices and positions, and the same sequence of edge end points. *)
Definition sameStructure (a b : Network) : Prop :=
  length (netNodes a) = length (netNodes b) ∧
  map nodeId (netNodes a) = map nodeId (netNodes b) ∧
  map nodeVert (netNodes a) = map nodeVert (netNodes b) ∧
  map endpoints (netEdges a) = map endpoints (netEdges b).

(** What the loops over the edges preserve of a network, and the edges
    [es] they append to it. *)
Definition extends (es : list NetworkEdge) (net net' : Network) : Prop :=
  netName net' = netName net ∧
  length (netNodes net') = length (netNodes net) ∧
  map nodeId (netNodes net') = map nodeId (netNodes net) ∧
  map nodeVert (netNodes net') = map nodeVert (netNodes net) ∧
  netEdges net' = netEdges net ++ es.

(** The edges that the loops over [i] and [j] append, in their order. *)
Definition edgesOf (vec : list MatrixXd) (rows : nat) : list NetworkEdge :=
  flat_map (λ i, map (λ j, mkEdge i j (nth j (nth i vec []) [])) (seq 0 rows))
           (seq 0 (length vec)).

(** The dense graph on [n] channels: the nodes carry the indices [0] to
    [n - 1] in this order, and the edges join every ordered pair [(i, j)],
    row by row. *)
Definition denseGraph (n : nat) (net : Network) : Prop :=
  map nodeId (netNodes net) = seq 0 n ∧
  map endpoints (netEdges net) = list_prod (seq 0 n) (seq 0 n).

(** A network with another name and with [g] applied to every weight. *)
Definition mapWeights (name : string) (g : double → double) (net : Network)
    : Network :=
  mkNetwork name (netNodes net)
    (map (λ e, mkEdge (startNode e) (endNode e) (map g (matWeight e)))
         (netEdges net)).

(** The nodes of the network after the loop over the [n] channels: node [i]
    has the index [i] and the position [v i]. *)
Definition nodesAt (v : nat → double * double * double) (n : nat)
    : list NetworkNode :=
  tabulate n (λ i, mkNode i (v i)).

(** The edges of the rows [s] to [s + m - 1] of the edge loops. *)
Definition edgeRows (vec : list MatrixXd) (r s m : nat) : list NetworkEdge :=
  flat_map (λ i, map (λ j, mkEdge i j (nth j (nth i vec []) [])) (seq 0 r))
           (seq s m).

(** ** A small instance of the spectral routines

    One boxcar taper of weight one; the spectrum of a row holds, at bin [f],
    the samples [f] and [f + 1] of the row as real and imaginary part; the
    cross-spectrum at bin [f] is [conj a_f * b_f]. It has the shape the real
    routines have and serves to run the functions above on concrete data. *)
Module Toy.

Definition bins (iNfft : Z) : list nat := seq 0 (Z.to_nat (iNfft / 2 + 1)).

Definition coeff (r : RowVectorXd) (f : nat) : complex :=
  Complex (nth f r zero) (nth (S f) r zero).

Definition conjMul (a b : complex) : complex :=
  Complex (add (mul (real a) (real b)) (mul (imag a) (imag b)))
          (sub (mul (real a) (imag b)) (mul (imag a) (real b))).

Definition firstRow (m : MatrixXcd) : RowVectorXcd := nth 0 m [].

#[export] Instance spectral : Spectral := {|
  generateTapers len _ := ([replicate (Z.to_nat len) one], [one]);
  computeTaperedSpectra r _ iNfft := [map (coeff r) (bins iNfft)];
  csdFromTaperedSpectra a b _ _ iNfft _ :=
    map (λ f, conjMul (nth f (firstRow a) (Complex zero zero))
                      (nth f (firstRow b) (Complex zero zero)))
        (bins iNfft)
|}.

(** The same routines, answering only when the FFT length is [n]: for any
    other length the spectrum has no taper and the cross-spectrum has no
    coefficient. *)
Definition spectralAt (n : Z) : Spectral := {|
  generateTapers len _ := ([replicate (Z.to_nat len) one], [one]);
  computeTaperedSpectra r _ iNfft :=
    if (iNfft =? n)%Z then [map (coeff r) (bins iNfft)] else [];
  csdFromTaperedSpectra a b _ _ iNfft _ :=
    if (iNfft =? n)%Z
    then map (λ f, conjMul (nth f (firstRow a) (Complex zero zero))
                           (nth f (firstRow b) (Complex zero zero)))
             (bins iNfft)
    else []
|}.

Definition d (z : Z) : double := of_Z z.

(** Two trials of two channels and four samples; one of eight samples. *)
Definition trialA : MatrixXd := [[d 1; d 2; d 4; d 0]; [d 0; d 3; d 1; d 5]].
Definition trialB : MatrixXd := [[d 2; d 0; d 1; d 7]; [d 1; d 1; d 0; d 2]].
Definition trialLong : MatrixXd :=
  [[d 1; d 2; d 4; d 0; d 1; d 2; d 4; d 0];
   [d 0; d 3; d 1; d 5; d 0; d 3; d 1; d 5]].

End Toy.

(** * Properties *)

(** ** Arithmetic of the doubles that hold integers *)

Section DoubleFacts.

Lemma Qc_of_Z_add a b :
  (Q2Qc (inject_Z a) + Q2Qc (inject_Z b))%Qc = Q2Qc (inject_Z (a + b)).
Proof.
  apply Qc_is_canon. simpl. rewrite !Qred_correct. now rewrite inject_Z_plus.
Qed.

Lemma Qc_of_Z_opp a : (- Q2Qc (inject_Z a))%Qc = Q2Qc (inject_Z (- a)).
Proof.
  apply Qc_is_canon. simpl. rewrite !Qred_correct. now rewrite inject_Z_opp.
Qed.

Lemma Qc_of_Z_mul a b :
  (Q2Qc (inject_Z a) * Q2Qc (inject_Z b))%Qc = Q2Qc (inject_Z (a * b)).
Proof.
  apply Qc_is_canon. simpl. rewrite !Qred_correct. now rewrite inject_Z_mult.
Qed.

Lemma Qc_of_Z_abs a : Qcabs (Q2Qc (inject_Z a)) = Q2Qc (inject_Z (Z.abs a)).
Proof. apply Qc_is_canon. simpl. now rewrite !Qred_correct. Qed.

Lemma Qc_of_Z_compare a b :
  (Q2Qc (inject_Z a) ?= Q2Qc (inject_Z b))%Qc = (a ?= b)%Z.
Proof.
  unfold Qccompare, Q2Qc. cbn [this]. rewrite <- Qred_compare.
  unfold Qcompare. cbn [Qnum Qden inject_Z]. now rewrite !Z.mul_1_r.
Qed.

Lemma Qc_of_Z_inj a b : Q2Qc (inject_Z a) = Q2Qc (inject_Z b) → a = b.
Proof.
  intros H. apply Z.compare_eq. rewrite <- Qc_of_Z_compare, H.
  apply Qceq_alt. reflexivity.
Qed.

Lemma add_of_Z a b : add (of_Z a) (of_Z b) = of_Z (a + b).
Proof. unfold of_Z. cbn [add]. now rewrite Qc_of_Z_add. Qed.

Lemma neg_of_Z a : neg (of_Z a) = of_Z (- a).
Proof. unfold of_Z. cbn [neg]. now rewrite Qc_of_Z_opp. Qed.

Lemma sub_of_Z a b : sub (of_Z a) (of_Z b) = of_Z (a - b).
Proof. unfold sub. now rewrite neg_of_Z, add_of_Z. Qed.

Lemma mul_of_Z a b : mul (of_Z a) (of_Z b) = of_Z (a * b).
Proof. unfold of_Z. cbn [mul]. now rewrite Qc_of_Z_mul. Qed.

Lemma abs_of_Z a : abs (of_Z a) = of_Z (Z.abs a).
Proof. unfold of_Z. cbn [abs]. now rewrite Qc_of_Z_abs. Qed.

Lemma of_bool_of_Z b : of_bool b = of_Z (Z.b2z b).
Proof. now destruct b. Qed.

Create Rewrite HintDb of_Z.
#[local] Hint Rewrite add_of_Z neg_of_Z sub_of_Z mul_of_Z abs_of_Z of_bool_of_Z
  : of_Z.

Lemma sign_signZ x : sign x = of_Z (signZ x).
Proof. unfold sign, signZ. now autorewrite with of_Z. Qed.

Lemma signZ_bounds x : -1 <= signZ x <= 1.
Proof. unfold signZ. destruct (ltb zero x), (ltb x zero); simpl; lia. Qed.

Lemma Qcltb_lt x y : Qcltb x y = true ↔ (x < y)%Qc.
Proof.
  unfold Qcltb. rewrite Qclt_alt. destruct (x ?= y)%Qc; intuition congruence.
Qed.

Lemma Qcltb_opp x y : Qcltb (- x) (- y) = Qcltb y x.
Proof.
  apply eq_true_iff_eq. rewrite !Qcltb_lt.
  rewrite (Qclt_minus_iff (- x)), (Qclt_minus_iff y).
  now replace (- y + - - x)%Qc with (x + - y)%Qc by ring.
Qed.

Lemma ltb_neg x y : ltb (neg x) (neg y) = ltb y x.
Proof. destruct x, y; cbn; auto using Qcltb_opp. Qed.

Lemma neg_zero : neg zero = zero.
Proof. unfold zero. now rewrite neg_of_Z. Qed.

Lemma signZ_neg x : signZ (neg x) = - signZ x.
Proof.
  pose proof (ltb_neg zero x) as H1. pose proof (ltb_neg x zero) as H2.
  rewrite neg_zero in H1, H2. unfold signZ. rewrite H1, H2. lia.
Qed.

(** The three cases of the sign. *)
Lemma sign_pos x : ltb zero x = true → sign x = of_Z 1.
Proof.
  intros H. rewrite sign_signZ. unfold signZ. rewrite H.
  destruct x; cbn in *; try discriminate; try reflexivity.
  apply Qcltb_lt in H.
  destruct (Qcltb q _) eqn:E; [|reflexivity].
  apply Qcltb_lt in E. exfalso. eapply Qclt_not_le; [exact H|]. now apply Qclt_le_weak.
Qed.

Lemma sign_neg x : ltb x zero = true → sign x = of_Z (-1).
Proof.
  intros H. rewrite sign_signZ. unfold signZ. rewrite H.
  destruct x; cbn in *; try discriminate; try reflexivity.
  apply Qcltb_lt in H.
  destruct (Qcltb _ q) eqn:E; [|reflexivity].
  apply Qcltb_lt in E. exfalso. eapply Qclt_not_le; [exact H|]. now apply Qclt_le_weak.
Qed.

Lemma sign_zero : sign zero = of_Z 0.
Proof. now rewrite sign_signZ. Qed.

End DoubleFacts.

(** ** Lists built by index, and the loops over them *)

Section ListFacts.

Context {A : Type}.
Implicit Types (g h : nat → A).

Lemma length_tabulate n g : length (tabulate n g) = n.
Proof. unfold tabulate. now rewrite length_map, length_seq. Qed.

Lemma lookup_tabulate n g i : (i < n)%nat → tabulate n g !! i = Some (g i).
Proof.
  intros Hi. unfold tabulate. rewrite list_lookup_fmap, lookup_seq_lt by done.
  reflexivity.
Qed.

Lemma tabulate_ext n g h :
  (∀ i, (i < n)%nat → g i = h i) → tabulate n g = tabulate n h.
Proof.
  intros Hgh. unfold tabulate. apply map_ext_in. intros i Hi.
  apply in_seq in Hi. apply Hgh. lia.
Qed.

Lemma insert_tabulate n g j x :
  <[j := x]> (tabulate n g) = tabulate n (λ i, if decide (i = j) then x else g i).
Proof.
  apply list_eq. intros i.
  destruct (decide (i < n)%nat) as [Hi|Hi].
  - rewrite (lookup_tabulate n _ i) by done.
    destruct (decide (i = j)) as [->|Hne].
    + rewrite list_lookup_insert_eq; [done|]. now rewrite length_tabulate.
    + rewrite list_lookup_insert_ne by done. now apply lookup_tabulate.
  - rewrite !lookup_ge_None_2; [done| |].
    + rewrite length_tabulate. lia.
    + rewrite length_insert, length_tabulate. lia.
Qed.

Lemma tabulate_nth (l : list A) d : tabulate (length l) (λ i, nth i l d) = l.
Proof.
  apply list_eq. intros i. destruct (decide (i < length l)%nat) as [Hi|Hi].
  - rewrite lookup_tabulate by done.
    destruct (nth_lookup_or_length l i d) as [->|]; [done|lia].
  - rewrite !lookup_ge_None_2; [done| lia |]. rewrite length_tabulate. lia.
Qed.

Lemma replicate_tabulate n (x : A) : replicate n x = tabulate n (λ _, x).
Proof.
  apply list_eq. intros i. destruct (decide (i < n)%nat) as [Hi|Hi].
  - rewrite lookup_tabulate by done. now apply lookup_replicate_2.
  - rewrite !lookup_ge_None_2; [done| |].
    + rewrite length_tabulate. lia.
    + rewrite length_replicate. lia.
Qed.

End ListFacts.

Section LoopFacts.

Lemma foldlM_ext {A B} (f g : A → B → option A) a l :
  (∀ a x, x ∈ l → f a x = g a x) → foldlM f a l = foldlM g a l.
Proof.
  revert a. induction l as [|x l IH]; intros a Hfg; [done|].
  cbn. rewrite Hfg by apply list_elem_of_here.
  destruct (g a x) as [a'|]; [|done]. cbn. apply IH.
  intros a0 y Hy. apply Hfg. now apply list_elem_of_further.
Qed.

(** A loop that replaces the elements [s, s + m) of a vector one by one. *)
Lemma foldlM_replace_range {A C} (F : nat → option C) (c : nat → C)
    (G : A → C → A) n m s (e : nat → A) :
  (s + m ≤ n)%nat →
  (∀ j, (s ≤ j < s + m)%nat → F j = Some (c j)) →
  foldlM (λ v j, x ← F j; a ← v !! j; Some (<[j := G a x]> v))
         (tabulate n e) (seq s m)
  = Some (tabulate n (λ j, if decide (s ≤ j < s + m)%nat
                           then G (e j) (c j) else e j)).
Proof.
  revert s e. induction m as [|m IH]; intros s e Hn HF.
  - cbn. f_equal. apply tabulate_ext. intros i _. case_decide; [lia|done].
  - cbn [seq foldlM]. rewrite HF by lia. cbn.
    rewrite lookup_tabulate by lia. cbn.
    rewrite insert_tabulate, IH; [|lia|intros; apply HF; lia].
    f_equal. apply tabulate_ext. intros i _.
    repeat case_decide; try lia; subst; done.
Qed.

Lemma foldlM_replace_all {A C} (F : nat → option C) (c : nat → C)
    (G : A → C → A) n (e : nat → A) :
  (∀ j, (j < n)%nat → F j = Some (c j)) →
  foldlM (λ v j, x ← F j; a ← v !! j; Some (<[j := G a x]> v))
         (tabulate n e) (seq 0 n)
  = Some (tabulate n (λ j, G (e j) (c j))).
Proof.
  intros HF. rewrite (foldlM_replace_range F c) by (try lia; intros; apply HF; lia).
  f_equal. apply tabulate_ext. intros i Hi. case_decide; [done|lia].
Qed.

Lemma mapM_seq_Some {B} (f : nat → option B) (g : nat → B) s n :
  (∀ i, (s ≤ i < s + n)%nat → f i = Some (g i)) →
  mapM f (seq s n) = Some (map g (seq s n)).
Proof.
  revert s. induction n as [|n IH]; intros s Hf; [done|].
  cbn. rewrite Hf by lia. cbn. rewrite IH by (intros; apply Hf; lia). done.
Qed.

Lemma mapM_seq_tabulate {B} (f : nat → option B) (g : nat → B) n :
  (∀ i, (i < n)%nat → f i = Some (g i)) →
  mapM f (seq 0 n) = Some (tabulate n g).
Proof. intros Hf. apply mapM_seq_Some. intros; apply Hf; lia. Qed.

End LoopFacts.

Section MatrixFacts.

Lemma map_tabulate {A B} (h : A → B) n (g : nat → A) :
  map h (tabulate n g) = tabulate n (λ i, h (g i)).
Proof. unfold tabulate. now rewrite map_map. Qed.

Lemma zip_with_tabulate {A B C} (h : A → B → C) n g1 g2 :
  zip_with h (tabulate n g1) (tabulate n g2) = tabulate n (λ i, h (g1 i) (g2 i)).
Proof.
  unfold tabulate. induction (seq 0 n) as [|i l IH]; [done|].
  cbn. now rewrite IH.
Qed.

Lemma cwise_tabulate {A B} (h : A → B) n c (e : nat → nat → A) :
  cwise h (tabulate n (λ k, tabulate c (e k)))
  = tabulate n (λ k, tabulate c (λ f, h (e k f))).
Proof.
  unfold cwise. rewrite map_tabulate. apply tabulate_ext. intros k _.
  apply map_tabulate.
Qed.

Lemma plus_tabulate n c (e1 e2 : nat → nat → double) :
  plus (tabulate n (λ k, tabulate c (e1 k))) (tabulate n (λ k, tabulate c (e2 k)))
  = tabulate n (λ k, tabulate c (λ f, add (e1 k f) (e2 k f))).
Proof.
  unfold plus. rewrite zip_with_tabulate. apply tabulate_ext. intros k _.
  apply zip_with_tabulate.
Qed.

Lemma Zero_tabulate n c : Zero n c = tabulate n (λ _, tabulate c (λ _, zero)).
Proof.
  unfold Zero. rewrite replicate_tabulate. apply tabulate_ext. intros _ _.
  apply replicate_tabulate.
Qed.

Lemma entry_tensor n c e i k f :
  (i < n)%nat → (k < n)%nat → (f < c)%nat →
  entry (tensor n c e) i k f = Some (e i k f).
Proof.
  intros Hi Hk Hf. unfold entry, tensor.
  rewrite lookup_tabulate by done. cbn.
  rewrite lookup_tabulate by done. cbn.
  now rewrite lookup_tabulate.
Qed.

Lemma tensor_ext n c e e' :
  (∀ i k f, (i < n)%nat → (k < n)%nat → (f < c)%nat → e i k f = e' i k f) →
  tensor n c e = tensor n c e'.
Proof.
  intros H. unfold tensor. apply tabulate_ext. intros i Hi.
  apply tabulate_ext. intros k Hk. apply tabulate_ext. intros f Hf. now apply H.
Qed.

End MatrixFacts.

Section PLIFacts.

Context {spectral : Spectral}.
Variables (tapers : MatrixXd * VectorXd) (iNfft : Z) (iNRows iNFreqs : nat).

(** The mean removal returns exactly on the matrices whose rows all have a
    sample, and then returns [demeaned]. *)
Lemma removeMean_demeaned m :
  Forall (λ r, r ≠ []) m → removeMean m = Some (demeaned m).
Proof.
  unfold removeMean, demeaned. induction 1 as [|r m Hr Hm IH]; [done|].
  cbn [mapM map]. rewrite IH. destruct r as [|x r]; [done|]. reflexivity.
Qed.

Lemma removeMean_Some m m' :
  removeMean m = Some m' → Forall (λ r, r ≠ []) m ∧ m' = demeaned m.
Proof.
  unfold removeMean, demeaned. revert m'.
  induction m as [|r m IH]; intros m' H.
  - injection H as <-. split; [apply Forall_nil_2|reflexivity].
  - cbn [mapM] in H. destruct r as [|x r]; [discriminate|].
    cbn [Eigen.mean mbind option_bind] in H.
    destruct (mapM _ m) as [k|] eqn:Hk; [|discriminate].
    destruct (IH k eq_refl) as [Hm ->]. cbn in H. split.
    + apply Forall_cons_2; [done|exact Hm].
    + injection H as <-. reflexivity.
Qed.

Lemma removeMean_is_Some m :
  is_Some (removeMean m) ↔ Forall (λ r, r ≠ []) m.
Proof.
  split.
  - intros [m' H]. now apply removeMean_Some in H.
  - intros H. rewrite removeMean_demeaned by done. eauto.
Qed.

Lemma length_demeaned m : length (demeaned m) = length m.
Proof. unfold demeaned. apply length_map. Qed.

Lemma csdRow_csdAt m i k :
  Forall (λ r, r ≠ []) m → (i < rows m)%nat → (k < rows m)%nat →
  csdRow tapers iNfft m i k = Some (csdAt tapers iNfft m i k).
Proof.
  intros Hne Hi Hk. unfold csdRow, csdAt, spectrumAt, rows in *.
  rewrite removeMean_demeaned by done. cbn [mbind option_bind].
  destruct (lookup_lt_is_Some_2 (demeaned m) i) as [ri Hri];
    [now rewrite length_demeaned|].
  destruct (lookup_lt_is_Some_2 (demeaned m) k) as [rk Hrk];
    [now rewrite length_demeaned|].
  rewrite Hri, Hrk. cbn.
  now rewrite (nth_lookup_Some _ _ [] _ Hri), (nth_lookup_Some _ _ [] _ Hrk).
Qed.

Lemma tapSpectra_tabulate m :
  (iNRows ≤ rows m)%nat →
  tapSpectra tapers iNfft iNRows (demeaned m)
  = Some (tabulate iNRows (spectrumAt tapers iNfft m)).
Proof.
  intros Hm. unfold tapSpectra. apply mapM_seq_tabulate. intros j Hj.
  destruct (lookup_lt_is_Some_2 (demeaned m) j) as [r Hr].
  { rewrite length_demeaned. unfold rows in Hm. lia. }
  rewrite Hr. cbn. unfold spectrumAt. now rewrite (nth_lookup_Some _ _ [] _ Hr).
Qed.

Lemma csdMatrix_tabulate m j :
  trialOK tapers iNfft iNRows iNFreqs m → (j < iNRows)%nat →
  csdMatrix tapers iNfft iNRows iNFreqs
            (tabulate iNRows (spectrumAt tapers iNfft m)) j
  = Some (tabulate iNRows (csdAt tapers iNfft m j)).
Proof.
  intros (Hm & Hne & Hlen) Hj. unfold csdMatrix.
  rewrite lookup_tabulate by done. cbn.
  apply mapM_seq_tabulate. intros k Hk.
  rewrite lookup_tabulate by done. cbn.
  unfold assignRow. fold (csdAt tapers iNfft m j k).
  rewrite decide_True; [done|]. now apply Hlen.
Qed.

Lemma signs_tabulate m j :
  trialOK tapers iNfft iNRows iNFreqs m → (j < iNRows)%nat →
  cwiseSign (imagPart (tabulate iNRows (csdAt tapers iNfft m j)))
  = tabulate iNRows (λ k, tabulate iNFreqs (λ f,
      of_Z (signAt tapers iNfft m j k f))).
Proof.
  intros (Hm & Hne & Hlen) Hj. unfold cwiseSign, imagPart, cwise.
  rewrite !map_tabulate. apply tabulate_ext. intros k Hk.
  rewrite <- (tabulate_nth (csdAt tapers iNfft m j k) (Complex NaN NaN)) at 1.
  rewrite Hlen by done. rewrite !map_tabulate. apply tabulate_ext. intros f _.
  unfold signAt, coeffAt. apply sign_signZ.
Qed.

Lemma accumulateTrial_tensor e m :
  trialOK tapers iNfft iNRows iNFreqs m →
  accumulateTrial tapers iNfft iNRows iNFreqs (tensor iNRows iNFreqs e) m
  = Some (tensor iNRows iNFreqs
            (λ j k f, add (e j k f) (of_Z (signAt tapers iNfft m j k f)))).
Proof.
  intros Hm. unfold accumulateTrial.
  rewrite removeMean_demeaned by apply Hm. cbn [mbind option_bind].
  rewrite tapSpectra_tabulate by apply Hm. cbn.
  unfold tensor at 1.
  rewrite (foldlM_replace_all _ (λ j, tabulate iNRows (csdAt tapers iNfft m j)))
    by (intros; now apply csdMatrix_tabulate).
  f_equal. unfold tensor. apply tabulate_ext. intros j Hj.
  rewrite signs_tabulate by done. apply plus_tabulate.
Qed.

Lemma foldlM_accumulateTrial e l :
  Forall (trialOK tapers iNfft iNRows iNFreqs) l →
  foldlM (accumulateTrial tapers iNfft iNRows iNFreqs)
         (tensor iNRows iNFreqs e) l
  = Some (tensor iNRows iNFreqs
            (λ j k f, foldl (λ x m, add x (of_Z (signAt tapers iNfft m j k f)))
                            (e j k f) l)).
Proof.
  intros Hl. revert e. induction Hl as [|m l Hm Hl IH]; intros e; [done|].
  cbn [foldlM]. rewrite accumulateTrial_tensor by done. cbn. now rewrite IH.
Qed.

Lemma foldl_add_signs (s : MatrixXd → Z) a l :
  foldl (λ x m, add x (of_Z (s m))) (of_Z a) l
  = of_Z (a + foldr Z.add 0 (map s l)).
Proof.
  revert a. induction l as [|m l IH]; intros a; cbn [foldl map foldr].
  - now rewrite Z.add_0_r.
  - rewrite add_of_Z, IH. f_equal. lia.
Qed.

End PLIFacts.

Section MeanFacts.

Lemma Qceqb_of_Z a : Qceqb (Q2Qc (inject_Z a)) 0 = (a =? 0).
Proof.
  unfold Qceqb. change 0%Qc with (Q2Qc (inject_Z 0)).
  now rewrite Qc_of_Z_compare, Z.eqb_compare.
Qed.

Lemma Qc_of_Z_le a b : a <= b → (Q2Qc (inject_Z a) <= Q2Qc (inject_Z b))%Qc.
Proof.
  intros H. apply Qcle_alt. rewrite Qc_of_Z_compare. now apply Z.compare_le_iff.
Qed.

Lemma Qc_of_Z_lt a b : a < b → (Q2Qc (inject_Z a) < Q2Qc (inject_Z b))%Qc.
Proof.
  intros H. apply Qclt_alt. rewrite Qc_of_Z_compare. now apply Z.compare_lt_iff.
Qed.

Lemma Qc_of_Z_neq0 a : a ≠ 0 → Q2Qc (inject_Z a) ≠ 0%Qc.
Proof.
  intros Ha H. apply Ha. apply Qc_of_Z_inj. exact H.
Qed.

Lemma div_of_Z_Fin a t :
  t ≠ 0 → div (of_Z a) (of_Z t) = Fin (Q2Qc (inject_Z a) / Q2Qc (inject_Z t))%Qc.
Proof.
  intros Ht. unfold of_Z. cbn [div]. rewrite Qceqb_of_Z.
  now destruct (Z.eqb_spec t 0).
Qed.

Lemma abs_mean_of_Z S (T : nat) :
  (0 < T)%nat →
  abs (mul (div one (of_nat T)) (of_Z S)) = div (of_Z (Z.abs S)) (of_nat T).
Proof.
  intros HT. unfold one, of_nat. rewrite !div_of_Z_Fin by lia.
  unfold of_Z. cbn [mul abs]. f_equal.
  assert (Ht : Q2Qc (inject_Z (Z.of_nat T)) ≠ 0%Qc) by (apply Qc_of_Z_neq0; lia).
  change (Q2Qc (inject_Z 1)) with 1%Qc.
  rewrite Qcabs_Qcmult, Qc_of_Z_abs, Qcabs_pos.
  - unfold Qcdiv. rewrite Qcmult_1_l. apply Qcmult_comm.
  - unfold Qcdiv. rewrite Qcmult_1_l. apply Qclt_le_weak, Qcinv_pos.
    change 0%Qc with (Q2Qc (inject_Z 0)). apply Qc_of_Z_lt. lia.
Qed.

Lemma pli_range S (T : nat) :
  (0 < T)%nat → Z.abs S <= Z.of_nat T →
  ∃ q, div (of_Z (Z.abs S)) (of_nat T) = Fin q ∧ (0 <= q)%Qc ∧ (q <= 1)%Qc.
Proof.
  intros HT HS. unfold of_nat. rewrite div_of_Z_Fin by lia.
  eexists; split; [reflexivity|].
  assert (Ht : (0 < Q2Qc (inject_Z (Z.of_nat T)))%Qc).
  { change 0%Qc with (Q2Qc (inject_Z 0)). apply Qc_of_Z_lt. lia. }
  assert (Hi : (0 <= / Q2Qc (inject_Z (Z.of_nat T)))%Qc)
    by now apply Qclt_le_weak, Qcinv_pos.
  unfold Qcdiv. split.
  - rewrite <- (Qcmult_0_l (/ Q2Qc (inject_Z (Z.of_nat T)))).
    apply Qcmult_le_compat_r; [|done].
    change 0%Qc with (Q2Qc (inject_Z 0)). apply Qc_of_Z_le. lia.
  - rewrite <- (Qcmult_inv_r (Q2Qc (inject_Z (Z.of_nat T)))).
    + apply Qcmult_le_compat_r; [|done]. now apply Qc_of_Z_le.
    + intros E. rewrite E in Ht. now apply (Qclt_not_eq _ _ Ht).
Qed.

End MeanFacts.

Section SignSums.

Context {spectral : Spectral}.
Variables (tapers : MatrixXd * VectorXd) (iNfft : Z).

Lemma sum_signs l i k f :
  sum (map (λ z, sign (imag z)) (map (λ m, coeffAt tapers iNfft m i k f) l))
  = of_Z (signSum tapers iNfft l i k f).
Proof.
  unfold signSum, sum. induction l as [|m l IH]; [done|].
  cbn [map foldr]. rewrite IH, sign_signZ, add_of_Z. reflexivity.
Qed.

Lemma signSum_bound l i k f :
  Z.abs (signSum tapers iNfft l i k f) <= Z.of_nat (length l).
Proof.
  unfold signSum. induction l as [|m l IH]; [done|].
  cbn [map foldr length].
  pose proof (signZ_bounds (imag (coeffAt tapers iNfft m i k f))).
  unfold signAt at 1. lia.
Qed.

Lemma signSum_swap l i k f :
  (∀ m, m ∈ l → imag (coeffAt tapers iNfft m k i f)
                = neg (imag (coeffAt tapers iNfft m i k f))) →
  signSum tapers iNfft l k i f = - signSum tapers iNfft l i k f.
Proof.
  unfold signSum. induction l as [|m l IH]; intros H; [done|].
  cbn [map foldr]. rewrite IH by (intros; apply H; now apply list_elem_of_further).
  unfold signAt. rewrite H by apply list_elem_of_here. rewrite signZ_neg. lia.
Qed.

End SignSums.

Section ComputePLI.

Context {spectral : Spectral}.
Variables (first : MatrixXd) (matDataList : list MatrixXd) (iNfft0 : Z)
          (sWindowType : string).

Let iSignalLength := Z.of_nat (cols first).
Let iNfft := fftLength iNfft0 iSignalLength.
Let tapers := generateTapers iSignalLength sWindowType.
Let iNRows := rows first.
Let iNFreqs := Z.to_nat (numFreqs iNfft).
Let iNTrials := length matDataList.

Hypothesis Hrun : validRun first matDataList iNfft0 sWindowType.

Lemma validRun_trialOK : Forall (trialOK tapers iNfft iNRows iNFreqs) matDataList.
Proof.
  destruct Hrun as (_ & Hrows & Hne & Hcsd). apply Forall_forall. intros m Hm.
  rewrite Forall_forall in Hrows, Hne. specialize (Hrows m Hm).
  specialize (Hne m Hm).
  split; [exact Hrows|]. split; [exact Hne|]. intros j k Hj Hk.
  apply (Hcsd m j k); [done..|].
  apply csdRow_csdAt; [exact Hne|fold iNRows in Hrows; lia..].
Qed.

Lemma validRun_nonempty : (0 < iNTrials)%nat.
Proof.
  destruct Hrun as (Hfirst & _). apply lookup_lt_Some in Hfirst. exact Hfirst.
Qed.

Lemma computePLI_closed :
  computePLI matDataList iNfft0 sWindowType
  = Some (tensor iNRows iNFreqs (λ i k f,
            div (of_Z (Z.abs (signSum tapers iNfft matDataList i k f)))
                (of_nat iNTrials))).
Proof.
  unfold computePLI. destruct Hrun as (Hfirst & _). rewrite Hfirst. cbn.
  fold iSignalLength iNfft tapers iNRows iNFreqs iNTrials.
  assert (H0 : replicate iNRows (Zero iNRows iNFreqs)
               = tensor iNRows iNFreqs (λ _ _ _, of_Z 0)).
  { rewrite replicate_tabulate. unfold tensor. apply tabulate_ext. intros _ _.
    apply Zero_tabulate. }
  rewrite H0, (foldlM_accumulateTrial _ _ _ _ _ _ validRun_trialOK). cbn.
  unfold tensor at 1. erewrite mapM_seq_tabulate; [reflexivity|].
  intros i Hi. rewrite lookup_tabulate by done. cbn. f_equal.
  unfold divScalar, cwiseAbs. rewrite !cwise_tabulate.
  apply tabulate_ext. intros k _. apply tabulate_ext. intros f _.
  rewrite foldl_add_signs, abs_of_Z. reflexivity.
Qed.

Lemma csdCoeff_coeffAt m i k f :
  m ∈ matDataList → (i < iNRows)%nat → (k < iNRows)%nat → (f < iNFreqs)%nat →
  csdCoeff tapers iNfft m i k f = Some (coeffAt tapers iNfft m i k f).
Proof.
  intros Hm Hi Hk Hf.
  pose proof validRun_trialOK as Hok. rewrite Forall_forall in Hok.
  destruct (Hok m Hm) as (Hrows & Hne & Hlen).
  unfold csdCoeff. rewrite csdRow_csdAt by (done || lia). cbn. unfold coeffAt.
  destruct (nth_lookup_or_length (csdAt tapers iNfft m i k) f (Complex NaN NaN))
    as [->|Hge]; [done|].
  rewrite Hlen in Hge by done. lia.
Qed.

Lemma mapM_csdCoeff i k f :
  (i < iNRows)%nat → (k < iNRows)%nat → (f < iNFreqs)%nat →
  mapM (λ m, csdCoeff tapers iNfft m i k f) matDataList
  = Some (map (λ m, coeffAt tapers iNfft m i k f) matDataList).
Proof.
  intros Hi Hk Hf. apply mapM_Some, Forall2_fmap_r, Forall_Forall2_diag.
  apply Forall_forall. intros m Hm. now apply csdCoeff_coeffAt.
Qed.

End ComputePLI.

Section Unbiased.

Context {spectral : Spectral}.

Lemma foldlM_replace_map {A} (g : A → A) (vec : list A) :
  foldlM (λ v j, m ← v !! j; Some (<[j := g m]> v)) vec (seq 0 (length vec))
  = Some (map g vec).
Proof.
  destruct vec as [|d vec']; [done|]. generalize (d :: vec'). intros vec.
  rewrite <- (tabulate_nth vec d). rewrite length_tabulate, map_tabulate.
  apply (foldlM_replace_all (λ _, Some ()) (λ _, ()) (λ a _, g a)). done.
Qed.

Lemma computePLI_length l iNfft w p first :
  l !! 0%nat = Some first → computePLI l iNfft w = Some p → length p = rows first.
Proof.
  intros Hfirst. unfold computePLI. rewrite Hfirst. cbn.
  destruct (foldlM _ _ _) as [acc|]; [|done]. cbn. intros Hp.
  apply length_mapM in Hp. now rewrite length_seq in Hp.
Qed.

Lemma computePLI_nonempty l iNfft w p :
  computePLI l iNfft w = Some p → ∃ first, l !! 0%nat = Some first.
Proof.
  unfold computePLI. destruct (l !! 0%nat) as [first|]; [eauto|done].
Qed.

(** On the empty list the first access, [matDataList.at(0)], is out of
    range. *)
Lemma computePLI_empty iNfft w : computePLI [] iNfft w = None.
Proof. reflexivity. Qed.

Lemma computeUnbiasedSquaredPLI_empty iNfft w :
  computeUnbiasedSquaredPLI [] iNfft w = None.
Proof. reflexivity. Qed.

(** The unbiased estimator is the standard one followed by the transform of
    every matrix, on every input. *)
Lemma computeUnbiasedSquaredPLI_fmap l iNfft w :
  computeUnbiasedSquaredPLI l iNfft w
  = map (cwise (unbias (Z.of_nat (length l)))) <$> computePLI l iNfft w.
Proof.
  unfold computeUnbiasedSquaredPLI.
  destruct (l !! 0%nat) as [first|] eqn:Hfirst; cbn.
  - destruct (computePLI l iNfft w) as [p|] eqn:Hp; [|done]. cbn.
    rewrite <- (computePLI_length _ _ _ _ _ Hfirst Hp).
    apply foldlM_replace_map.
  - destruct (computePLI l iNfft w) as [p|] eqn:Hp; [|done].
    apply computePLI_nonempty in Hp as [? ?]. congruence.
Qed.

Lemma entry_map_cwise g v i k f :
  entry (map (cwise g) v) i k f = g <$> entry v i k f.
Proof.
  unfold entry, cwise. rewrite list_lookup_fmap.
  destruct (v !! i) as [m|]; [|done]. cbn. rewrite list_lookup_fmap.
  destruct (m !! k) as [r|]; [|done]. cbn. apply list_lookup_fmap.
Qed.

(** With one trial an entry of the standard estimator is zero or one, and
    the transform sends zero to [-Inf] and one to NaN. *)
Lemma div_of_Z_one a : div (of_Z a) (of_nat 1) = of_Z a.
Proof.
  unfold of_nat. rewrite div_of_Z_Fin by lia. unfold of_Z. f_equal.
  change (Q2Qc (inject_Z (Z.of_nat 1))) with 1%Qc.
  generalize (Q2Qc (inject_Z a)). intros q. field. apply Q_apart_0_1.
Qed.

Lemma unbias_one_trial S :
  Z.abs S <= 1 →
  let p := div (of_Z (Z.abs S)) (of_nat 1) in
  (p = zero ∧ unbias 1 p = NInf) ∨ (p = one ∧ unbias 1 p = NaN).
Proof.
  intros HS p. unfold p. rewrite div_of_Z_one.
  assert (Z.abs S = 0 ∨ Z.abs S = 1) as [->| ->] by lia; [left|right];
    (split; [reflexivity|vm_compute; reflexivity]).
Qed.

(** In exact arithmetic, for at least two trials and a finite value. *)
Lemma unbias_finite T q :
  2 <= T →
  unbias T (Fin q)
  = Fin ((Q2Qc (inject_Z T) * (q * q) - 1) / Q2Qc (inject_Z (T - 1)))%Qc.
Proof.
  intros HT. unfold unbias, square, sub, one, of_Z. cbn [mul neg add div].
  rewrite Qceqb_of_Z. destruct (Z.eqb_spec (T - 1) 0); [lia|].
  reflexivity.
Qed.

(** The value the specification works out by hand: two trials and a phase
    lag index of one half give minus one half. *)
Example unbias_two_trials_half :
  unbias 2 (Fin (Q2Qc (1 # 2))) = Fin (Q2Qc (- 1 # 2)).
Proof.
  rewrite unbias_finite by lia. apply (f_equal Fin), Qc_is_canon. reflexivity.
Qed.

End Unbiased.

Section NetworkFacts.

Lemma tabulate_S {A} n (g : nat → A) : tabulate (S n) g = tabulate n g ++ [g n].
Proof. unfold tabulate. now rewrite seq_S, map_app. Qed.

Lemma createNodes_closed matVert n net :
  createNodes matVert n net
  = (vertState matVert n,
     mkNetwork (netName net)
       (netNodes net ++ tabulate n (λ i, Net.newNode i (vertState matVert (S i))))
       (netEdges net)).
Proof.
  induction n as [|n IH].
  - destruct net. cbn. now rewrite app_nil_r.
  - unfold createNodes in *. rewrite seq_S, foldl_app, IH. cbn [foldl].
    unfold Net.appendNode. cbn [netName netNodes netEdges vertState].
    now rewrite tabulate_S, app_assoc.
Qed.

(** The position of node [i]: row [i] of [matVert] when it exists, and
    otherwise the last row of [matVert], or the origin when [matVert] has no
    row at all. *)
Lemma vertState_S matVert i :
  vertState matVert (S i)
  = default (default zeroVert (last matVert)) (matVert !! i).
Proof.
  induction i as [|i IH].
  - destruct matVert as [|r matVert]; cbn; reflexivity.
  - change (vertState matVert (S (S i)))
      with (updateVert matVert (S i) (vertState matVert (S i))).
    rewrite IH. unfold updateVert.
    destruct (Nat.eqb_spec (length matVert) 0) as [H0|H0]; cbn [negb andb].
    + apply length_zero_iff_nil in H0. subst. reflexivity.
    + destruct (Nat.ltb_spec (S i) (length matVert)) as [Hlt|Hge].
      { now destruct (lookup_lt_is_Some_2 _ _ Hlt) as [r ->]. }
      rewrite (lookup_ge_None_2 matVert (S i)) by lia. cbn [default].
      destruct (decide (i < length matVert)%nat) as [Hi|Hi].
      * assert (i = pred (length matVert)) as -> by lia.
        rewrite <- last_lookup. now destruct (last matVert).
      * now rewrite lookup_ge_None_2 by lia.
Qed.

Lemma addEdge_Some net i j w :
  (i < length (netNodes net))%nat → (j < length (netNodes net))%nat →
  Net.addEdge net i j w
  = Some (mkNetwork (netName net) (netNodes net)
            (netEdges net ++ [mkEdge i j w])).
Proof.
  intros Hi Hj.
  destruct (lookup_lt_is_Some_2 _ _ Hi) as [ni Hni].
  destruct (lookup_lt_is_Some_2 _ _ Hj) as [nj Hnj].
  unfold Net.addEdge. rewrite Hni, Hnj. reflexivity.
Qed.

Lemma extends_refl net : extends [] net net.
Proof. unfold extends. now rewrite app_nil_r. Qed.

Lemma extends_trans es1 es2 a b c :
  extends es1 a b → extends es2 b c → extends (es1 ++ es2) a c.
Proof.
  unfold extends. intros (? & ? & ? & ? & ?) (? & ? & ? & ? & ?).
  rewrite app_assoc. repeat split; congruence.
Qed.

Lemma addEdge_extends net i j w :
  (i < length (netNodes net))%nat → (j < length (netNodes net))%nat →
  ∃ net', Net.addEdge net i j w = Some net' ∧ extends [mkEdge i j w] net net'.
Proof.
  intros Hi Hj. rewrite (addEdge_Some net i j w Hi Hj).
  eexists; split; [reflexivity|]. unfold extends. cbn. done.
Qed.

Lemma inner_loop_extends (vec : list MatrixXd) i js net :
  (i < length (netNodes net))%nat → (i < length vec)%nat →
  Forall (λ j, (j < length (netNodes net))%nat ∧ (j < length (nth i vec []))%nat) js →
  ∃ net',
    foldlM (λ net j, m ← vec !! i; w ← m !! j; Net.addEdge net i j w) net js
    = Some net' ∧
    extends (map (λ j, mkEdge i j (nth j (nth i vec []) [])) js) net net'.
Proof.
  intros Hi Hv Hjs.
  set (step := λ net j, m ← vec !! i; w ← m !! j; Net.addEdge net i j w).
  revert net Hi Hjs.
  induction js as [|j js IH]; intros net Hi Hjs.
  - exists net. split; [done|]. apply extends_refl.
  - apply Forall_cons in Hjs as [[Hj Hw] Hjs].
    destruct (lookup_lt_is_Some_2 _ _ Hv) as [m Hm].
    rewrite (nth_lookup_Some _ _ [] _ Hm) in Hw.
    destruct (lookup_lt_is_Some_2 _ _ Hw) as [w Hw'].
    destruct (addEdge_extends net i j w Hi Hj) as (net1 & Hadd & Hext).
    assert (Hlen : length (netNodes net1) = length (netNodes net)) by apply Hext.
    destruct (IH net1) as (net' & Hfold & Hext').
    { now rewrite Hlen. }
    { eapply Forall_impl; [exact Hjs|]. cbn. intros j' [? ?]. now rewrite Hlen. }
    exists net'. split.
    + assert (Hs : step net j = Some net1).
      { unfold step. rewrite Hm. cbn. rewrite Hw'. exact Hadd. }
      cbn [foldlM]. rewrite Hs. exact Hfold.
    + cbn [map].
      rewrite (nth_lookup_Some _ _ [] _ Hm), (nth_lookup_Some _ _ [] _ Hw').
      rewrite (nth_lookup_Some _ _ [] _ Hm) in Hext'.
      apply (extends_trans [_] _ _ _ _ Hext Hext').
Qed.

Lemma addEdges_extends (vec : list MatrixXd) rows net :
  (length vec ≤ length (netNodes net))%nat →
  (rows ≤ length (netNodes net))%nat →
  Forall (λ m, (rows ≤ length m)%nat) vec →
  ∃ net', addEdges vec rows net = Some net' ∧ extends (edgesOf vec rows) net net'.
Proof.
  intros Hv Hr Hm. unfold addEdges, edgesOf.
  assert (His : Forall (λ i, (i < length vec)%nat) (seq 0 (length vec))).
  { apply Forall_forall. intros i Hi. apply list_elem_of_In, in_seq in Hi. lia. }
  set (inner := λ net i,
         foldlM (λ net j, m ← vec !! i; w ← m !! j; Net.addEdge net i j w)
                net (seq 0 rows)).
  revert net Hv Hr His.
  induction (seq 0 (length vec)) as [|i rest IH]; intros net Hv Hr His.
  - exists net. split; [done|]. apply extends_refl.
  - apply Forall_cons in His as [Hi His].
    destruct (inner_loop_extends vec i (seq 0 rows) net) as (net1 & Hin & Hext);
      [lia|done| |].
    { apply Forall_forall. intros j Hj. apply list_elem_of_In, in_seq in Hj.
      split; [lia|]. rewrite Forall_forall in Hm.
      destruct (lookup_lt_is_Some_2 _ _ Hi) as [m Hmi].
      rewrite (nth_lookup_Some _ _ [] _ Hmi).
      specialize (Hm m (list_elem_of_lookup_2 _ _ _ Hmi)). lia. }
    assert (Hlen : length (netNodes net1) = length (netNodes net)) by apply Hext.
    destruct (IH net1) as (net' & Hfold & Hext'); [lia|lia|done|].
    exists net'. split.
    + assert (Hs : inner net i = Some net1) by exact Hin.
      cbn [foldlM]. rewrite Hs. exact Hfold.
    + cbn [flat_map]. apply (extends_trans _ _ _ _ _ Hext Hext').
Qed.

Lemma endpoints_edgesOf vec rows :
  map endpoints (edgesOf vec rows) = list_prod (seq 0 (length vec)) (seq 0 rows).
Proof.
  unfold edgesOf. induction (seq 0 (length vec)) as [|i rest IH]; [done|].
  cbn [flat_map list_prod]. rewrite map_app, IH, map_map. reflexivity.
Qed.

End NetworkFacts.

Section Simulation.

Context {spectral : Spectral}.

Lemma foldlM_fmap {A A' B} (h : A → A') (f : A → B → option A)
    (f' : A' → B → option A') a l :
  (∀ a x, f' (h a) x = h <$> f a x) →
  foldlM f' (h a) l = h <$> foldlM f a l.
Proof.
  intros Hf. revert a. induction l as [|x l IH]; intros a; [done|].
  cbn [foldlM]. rewrite Hf. destruct (f a x) as [a1|]; [|done]. cbn. apply IH.
Qed.

Lemma addEdge_mapWeights name g net i j w :
  Net.addEdge (mapWeights name g net) i j (map g w)
  = mapWeights name g <$> Net.addEdge net i j w.
Proof.
  unfold Net.addEdge. cbn [mapWeights netNodes netEdges netName].
  destruct (netNodes net !! i) as [ni|]; [|done]. cbn.
  destruct (netNodes net !! j) as [nj|]; [|done]. cbn.
  unfold mapWeights. cbn. now rewrite map_app.
Qed.

Lemma addEdges_mapWeights name g vec rows net :
  addEdges (map (cwise g) vec) rows (mapWeights name g net)
  = mapWeights name g <$> addEdges vec rows net.
Proof.
  unfold addEdges. rewrite length_map.
  apply foldlM_fmap. intros net1 i. apply foldlM_fmap. intros net2 j.
  rewrite list_lookup_fmap. destruct (vec !! i) as [m|]; [|done]. cbn.
  unfold cwise. rewrite list_lookup_fmap. destruct (m !! j) as [w|]; [|done].
  cbn. apply addEdge_mapWeights.
Qed.

(** The two assembly functions differ by the name and by the transform of
    the weights only. *)
Lemma unbiasedSquaredPhaseLagIndex_fmap l matVert iNfft w :
  unbiasedSquaredPhaseLagIndex l matVert iNfft w
  = mapWeights "Unbiased Squared Phase Lag Index"
               (unbias (Z.of_nat (length l)))
    <$> phaseLagIndex l matVert iNfft w.
Proof.
  destruct l as [|first l]; [done|].
  unfold unbiasedSquaredPhaseLagIndex, phaseLagIndex.
  cbn zeta. rewrite !createNodes_closed. cbn [Net.new netName netNodes netEdges].
  rewrite computeUnbiasedSquaredPLI_fmap.
  destruct (computePLI (first :: l) iNfft w) as [p|]; [|done]. cbn.
  apply (addEdges_mapWeights _ _ p (rows first)
           (mkNetwork "Phase Lag Index" _ [])).
Qed.

Lemma sameStructure_mapWeights name g net :
  sameStructure net (mapWeights name g net).
Proof.
  unfold sameStructure, mapWeights. cbn. repeat split.
  rewrite map_map. reflexivity.
Qed.

End Simulation.

(** ** When the loops return *)

Section Success.

Context {spectral : Spectral}.

Lemma tensor_shape n c e :
  length (tensor n c e) = n ∧
  Forall (λ m : list (list double),
            length m = n ∧ Forall (λ r, length r = c) m) (tensor n c e).
Proof.
  split; [apply length_tabulate|]. unfold tensor.
  apply Forall_forall. intros m Hm.
  apply list_elem_of_lookup in Hm as [i Hi].
  pose proof (lookup_lt_Some _ _ _ Hi) as Hlt. rewrite length_tabulate in Hlt.
  rewrite lookup_tabulate in Hi by done. injection Hi as <-.
  split; [apply length_tabulate|]. apply Forall_forall. intros r Hr.
  apply list_elem_of_lookup in Hr as [k Hk].
  pose proof (lookup_lt_Some _ _ _ Hk) as Hlt'. rewrite length_tabulate in Hlt'.
  rewrite lookup_tabulate in Hk by done. injection Hk as <-.
  apply length_tabulate.
Qed.

Lemma fftLength_max iNfft len : fftLength iNfft len = Z.max iNfft len.
Proof. unfold fftLength. destruct (Z.ltb_spec iNfft len); lia. Qed.

Lemma foldlM_Some_steps {A B} (f : A → B → option A) a l r :
  foldlM f a l = Some r → Forall (λ x, ∃ a', is_Some (f a' x)) l.
Proof.
  revert a. induction l as [|x l IH]; intros a H; [constructor|].
  cbn [foldlM] in H. destruct (f a x) as [a1|] eqn:E; [|done].
  constructor; [exists a; rewrite E; eauto|]. exact (IH a1 H).
Qed.

Lemma foldlM_None_step {A B} (f : A → B → option A) a l x :
  x ∈ l → (∀ a', f a' x = None) → foldlM f a l = None.
Proof.
  intros Hx Hf. destruct (foldlM f a l) as [r|] eqn:E; [|done].
  apply foldlM_Some_steps in E. rewrite Forall_forall in E.
  destruct (E x Hx) as (a' & [y Hy]). rewrite Hf in Hy. done.
Qed.

Lemma tapSpectra_Some_rows tapers iNfft iNRows m vs :
  tapSpectra tapers iNfft iNRows (demeaned m) = Some vs →
  (iNRows ≤ rows m)%nat.
Proof.
  intros H. destruct (decide (iNRows ≤ rows m)%nat) as [|Hlt]; [done|].
  exfalso. apply mapM_Some_1 in H.
  destruct (Forall2_lookup_l _ _ _ (rows m) (rows m) H) as (y & _ & Hy).
  { apply lookup_seq. lia. }
  rewrite (lookup_ge_None_2 (demeaned m) (rows m)) in Hy; [done|].
  rewrite length_demeaned. done.
Qed.

Lemma accumulateTrial_Some_trialOK tapers iNfft iNRows iNFreqs acc m acc' :
  accumulateTrial tapers iNfft iNRows iNFreqs acc m = Some acc' →
  trialOK tapers iNfft iNRows iNFreqs m.
Proof.
  unfold accumulateTrial.
  destruct (removeMean m) as [md|] eqn:Hr; [|done]. cbn [mbind option_bind].
  apply removeMean_Some in Hr as [Hne ->].
  destruct (tapSpectra _ _ _ _) as [vs|] eqn:Ht; [|done]. cbn.
  pose proof (tapSpectra_Some_rows _ _ _ _ _ Ht) as Hrows.
  rewrite tapSpectra_tabulate in Ht by done. injection Ht as <-.
  intros Hfold. split; [done|]. split; [done|]. intros j k Hj Hk.
  apply foldlM_Some_steps in Hfold. rewrite Forall_forall in Hfold.
  destruct (Hfold j) as (a' & [y Hy]).
  { apply list_elem_of_In, in_seq. lia. }
  destruct (csdMatrix _ _ _ _ _ j) as [matCsd|] eqn:Hc; [|done].
  unfold csdMatrix in Hc. rewrite lookup_tabulate in Hc by done. cbn in Hc.
  apply mapM_Some_1 in Hc.
  destruct (Forall2_lookup_l _ _ _ k k Hc) as (c & _ & Hck).
  { apply lookup_seq. lia. }
  rewrite lookup_tabulate in Hck by done. cbn in Hck.
  unfold assignRow in Hck. case_decide; [|done]. done.
Qed.

Lemma foldlM_accumulateTrial_Some tapers iNfft iNRows iNFreqs e l r :
  foldlM (accumulateTrial tapers iNfft iNRows iNFreqs)
         (tensor iNRows iNFreqs e) l = Some r →
  Forall (trialOK tapers iNfft iNRows iNFreqs) l.
Proof.
  revert e. induction l as [|m l IH]; intros e H; [constructor|].
  cbn [foldlM] in H.
  destruct (accumulateTrial _ _ _ _ _ m) as [acc1|] eqn:E; [|done].
  pose proof (accumulateTrial_Some_trialOK _ _ _ _ _ _ _ E) as Hm.
  rewrite accumulateTrial_tensor in E by done. injection E as <-.
  constructor; [done|]. exact (IH _ H).
Qed.

Lemma computePLI_Some_validRun l iNfft w first v :
  l !! 0%nat = Some first → computePLI l iNfft w = Some v →
  validRun first l iNfft w.
Proof.
  intros Hfirst. unfold computePLI. rewrite Hfirst. cbn.
  assert (H0 : ∀ n c, replicate n (Zero n c) = tensor n c (λ _ _ _, zero)).
  { intros n c. rewrite replicate_tabulate. unfold tensor. apply tabulate_ext.
    intros _ _. apply Zero_tabulate. }
  rewrite H0. destruct (foldlM _ _ l) as [acc|] eqn:E; [|done]. intros _.
  apply foldlM_accumulateTrial_Some in E. rewrite Forall_forall in E.
  split; [done|]. split; [|split].
  - apply Forall_forall. intros m Hm. apply (E m Hm).
  - apply Forall_forall. intros m Hm. apply (E m Hm).
  - cbn zeta. intros m i k c Hm Hi Hk Hc.
    destruct (E m Hm) as (Hrows & Hne & Hlen).
    rewrite csdRow_csdAt in Hc by (done || lia). injection Hc as <-.
    now apply Hlen.
Qed.

End Success.

(** ** The routines that the loop over the trials calls *)

Section Routines.

Variables (S1 S2 : Spectral).
Variables (tapers : MatrixXd * VectorXd) (iNfft : Z).

Hypothesis Hspectra : ∀ r,
  @computeTaperedSpectra S2 r tapers.1 iNfft
  = @computeTaperedSpectra S1 r tapers.1 iNfft.
Hypothesis Hcsd : ∀ a b,
  @csdFromTaperedSpectra S2 a b tapers.2 tapers.2 iNfft one
  = @csdFromTaperedSpectra S1 a b tapers.2 tapers.2 iNfft one.

Lemma tapSpectra_ext iNRows m :
  @tapSpectra S2 tapers iNfft iNRows m = @tapSpectra S1 tapers iNfft iNRows m.
Proof.
  unfold tapSpectra. apply mapM_ext. intros j.
  destruct (m !! j) as [r|]; [|done]. cbn. now rewrite Hspectra.
Qed.

Lemma csdMatrix_ext iNRows iNFreqs vs j :
  @csdMatrix S2 tapers iNfft iNRows iNFreqs vs j
  = @csdMatrix S1 tapers iNfft iNRows iNFreqs vs j.
Proof.
  unfold csdMatrix. destruct (vs !! j) as [sj|]; [|done]. cbn.
  apply mapM_ext. intros k. destruct (vs !! k) as [sk|]; [|done]. cbn.
  now rewrite Hcsd.
Qed.

Lemma accumulateTrial_ext iNRows iNFreqs acc m :
  @accumulateTrial S2 tapers iNfft iNRows iNFreqs acc m
  = @accumulateTrial S1 tapers iNfft iNRows iNFreqs acc m.
Proof.
  unfold accumulateTrial. destruct (removeMean m) as [md|]; [|done].
  cbn [mbind option_bind]. rewrite tapSpectra_ext.
  destruct (tapSpectra tapers iNfft iNRows md) as [vs|]; [|done].
  cbn [mbind option_bind]. apply foldlM_ext. intros a j _.
  now rewrite csdMatrix_ext.
Qed.

End Routines.

(** ** The small instance meets the contracts *)

Section ToyFacts.

#[local] Existing Instance Toy.spectral.

Lemma Toy_csdRow_length tapers iNfft m i k c :
  csdRow tapers iNfft m i k = Some c → length c = Z.to_nat (numFreqs iNfft).
Proof.
  unfold csdRow. destruct (removeMean m) as [md|]; [|done]. cbn.
  destruct (md !! i); [|done]. cbn.
  destruct (md !! k); [|done]. cbn. intros [= <-].
  unfold Toy.bins, numFreqs. now rewrite length_map, length_seq.
Qed.

Lemma Toy_validRun first l iNfft w :
  l !! 0%nat = Some first → Forall (λ m, (rows first ≤ rows m)%nat) l →
  Forall (λ m : MatrixXd, Forall (λ r, r ≠ []) m) l →
  validRun first l iNfft w.
Proof.
  intros Hfirst Hrows Hne. split; [done|]. split; [done|]. split; [done|].
  cbn zeta.
  intros m i k c _ _ _ Hc. eapply Toy_csdRow_length. exact Hc.
Qed.

Lemma dbl_mul_comm x y : mul x y = mul y x.
Proof. destruct x, y; cbn; try reflexivity. now rewrite Qcmult_comm. Qed.

Lemma dbl_neg_sub x y : neg (sub x y) = sub y x.
Proof.
  destruct x, y; cbn; try reflexivity. f_equal. ring.
Qed.

Lemma Toy_csdConjugate first l iNfft w : csdConjugate first l iNfft w.
Proof.
  unfold csdConjugate. cbn zeta.
  intros m i k f z z' _. unfold csdCoeff, csdRow.
  destruct (removeMean m) as [md|]; [|done]. cbn [mbind option_bind].
  destruct (md !! i); [|done]. destruct (md !! k); [|done].
  cbn. rewrite !list_lookup_fmap.
  destruct (Toy.bins _ !! f) as [f'|]; [|done]. cbn. intros [= <-] [= <-].
  unfold Toy.conjMul. cbn [imag]. rewrite dbl_neg_sub.
  f_equal; apply dbl_mul_comm.
Qed.

End ToyFacts.

Section Specification.

Context {spectral : Spectral}.

(** C2. On a valid run over a non-empty list of [T] trials, [computePLI]
    returns a tensor whose entry for the reference channel [i], the target
    channel [k] and the frequency bin [f] is
    [| (1 / T) * sum over the trials of sign (Im (CSD_t (i, k, f))) |], where
    [CSD_t (i, k, f)] is the coefficient that the loop body computes for
    trial [t]. The sign of a strictly positive value is [+1], of a strictly
    negative value [-1], and of zero [0]. *)
Theorem computePLI_formula first l iNfft0 w :
  validRun first l iNfft0 w →
  let iNfft := fftLength iNfft0 (Z.of_nat (cols first)) in
  let tapers := generateTapers (Z.of_nat (cols first)) w in
  (∃ v, computePLI l iNfft0 w = Some v ∧
     ∀ i k f,
       (i < rows first)%nat → (k < rows first)%nat →
       (f < Z.to_nat (numFreqs iNfft))%nat →
       ∃ zs, mapM (λ m, csdCoeff tapers iNfft m i k f) l = Some zs ∧
             entry v i k f
             = Some (abs (mul (div one (of_nat (length l)))
                              (sum (map (λ z, sign (imag z)) zs))))) ∧
  (∀ x, ltb zero x = true → sign x = of_Z 1) ∧
  (∀ x, ltb x zero = true → sign x = of_Z (-1)) ∧
  sign zero = of_Z 0.
Proof.
  intros Hrun iNfft tapers. split; [|auto using sign_pos, sign_neg, sign_zero].
  eexists. split; [apply (computePLI_closed _ _ _ _ Hrun)|].
  intros i k f Hi Hk Hf.
  eexists. split; [apply (mapM_csdCoeff _ _ _ _ Hrun); done|].
  rewrite entry_tensor by done. f_equal.
  rewrite sum_signs. symmetry. apply abs_mean_of_Z.
  apply (validRun_nonempty _ _ _ _ Hrun).
Qed.

(** C9. On a valid run over a non-empty list of trials, every entry
    [(i, k, f)] of the tensor that [computePLI] returns is a finite value of
    the interval [[0, 1]]. *)
Theorem computePLI_range first l iNfft0 w :
  validRun first l iNfft0 w →
  let iNfft := fftLength iNfft0 (Z.of_nat (cols first)) in
  ∃ v, computePLI l iNfft0 w = Some v ∧
    ∀ i k f,
      (i < rows first)%nat → (k < rows first)%nat →
      (f < Z.to_nat (numFreqs iNfft))%nat →
      ∃ q, entry v i k f = Some (Fin q) ∧ (0 <= q)%Qc ∧ (q <= 1)%Qc.
Proof.
  intros Hrun iNfft.
  eexists. split; [apply (computePLI_closed _ _ _ _ Hrun)|].
  intros i k f Hi Hk Hf. rewrite entry_tensor by done.
  edestruct pli_range as (q & Hq & Hbounds);
    [apply (validRun_nonempty _ _ _ _ Hrun)|apply signSum_bound|].
  exists q. rewrite Hq. auto.
Qed.

(** C8. On a valid run over a non-empty list of trials, and when swapping
    the two channels conjugates the cross-spectrum, the tensor that
    [computePLI] returns is symmetric in the channels: the entries
    [(i, k, f)] and [(k, i, f)] are equal. *)
Theorem computePLI_symmetric first l iNfft0 w :
  validRun first l iNfft0 w →
  csdConjugate first l iNfft0 w →
  let iNfft := fftLength iNfft0 (Z.of_nat (cols first)) in
  ∃ v, computePLI l iNfft0 w = Some v ∧
    ∀ i k f,
      (i < rows first)%nat → (k < rows first)%nat →
      (f < Z.to_nat (numFreqs iNfft))%nat →
      ∃ x, entry v i k f = Some x ∧ entry v k i f = Some x.
Proof.
  intros Hrun Hconj iNfft.
  eexists. split; [apply (computePLI_closed _ _ _ _ Hrun)|].
  intros i k f Hi Hk Hf. rewrite !entry_tensor by done.
  eexists. split; [reflexivity|]. do 2 f_equal.
  rewrite (signSum_swap _ _ l i k f); [now rewrite Z.abs_opp|].
  intros m Hm. eapply Hconj; [exact Hm| |];
    apply (csdCoeff_coeffAt _ _ _ _ Hrun); done.
Qed.

(** C3. On a valid run over a non-empty list of [T] trials,
    [computeUnbiasedSquaredPLI] returns the tensor of [computePLI] on the
    same inputs with [(T * p^2 - 1) / (T - 1)] applied to every entry [p],
    in the arithmetic of doubles, and nothing else. *)
Theorem computeUnbiasedSquaredPLI_transform first l iNfft0 w :
  validRun first l iNfft0 w →
  let T := Z.of_nat (length l) in
  let transform p := div (sub (mul (of_Z T) (square p)) one) (of_Z (T - 1)) in
  ∃ p u, computePLI l iNfft0 w = Some p ∧
         computeUnbiasedSquaredPLI l iNfft0 w = Some u ∧
         u = map (cwise transform) p ∧
         ∀ i k f, entry u i k f = transform <$> entry p i k f.
Proof.
  intros Hrun T transform.
  eexists. eexists. split; [apply (computePLI_closed _ _ _ _ Hrun)|].
  rewrite computeUnbiasedSquaredPLI_fmap, (computePLI_closed _ _ _ _ Hrun).
  split; [reflexivity|]. split; [reflexivity|].
  intros i k f. apply entry_map_cwise.
Qed.

(** C6. On the empty trial list, for every geometry, FFT length and window
    type, [phaseLagIndex] and [unbiasedSquaredPhaseLagIndex] return, without
    an error, the network that carries their name and has no node and no
    edge. *)
Theorem empty_input_network matVert iNfft w :
  phaseLagIndex [] matVert iNfft w = Some (mkNetwork "Phase Lag Index" [] []) ∧
  unbiasedSquaredPhaseLagIndex [] matVert iNfft w
  = Some (mkNetwork "Unbiased Squared Phase Lag Index" [] []).
Proof. split; reflexivity. Qed.

Lemma phaseLagIndex_graph first l matVert iNfft0 w :
  validRun first l iNfft0 w →
  ∃ net, phaseLagIndex l matVert iNfft0 w = Some net ∧
         denseGraph (rows first) net ∧
         map nodeVert (netNodes net)
         = tabulate (rows first) (λ i, vertState matVert (S i)).
Proof.
  intros Hrun. pose proof Hrun as (Hfirst & _).
  destruct l as [|first' l']; [done|]. cbn in Hfirst. injection Hfirst as ->.
  unfold phaseLagIndex. cbn zeta. rewrite createNodes_closed.
  rewrite (computePLI_closed _ _ _ _ Hrun). cbn.
  set (vec := tensor _ _ _). set (net0 := mkNetwork _ _ _).
  assert (Hvec : length vec = rows first) by apply length_tabulate.
  assert (Hnodes : length (netNodes net0) = rows first) by apply length_tabulate.
  destruct (addEdges_extends vec (rows first) net0) as (net & Hnet & Hext).
  { lia. }
  { lia. }
  { apply Forall_forall. intros m' Hm'. apply list_elem_of_lookup in Hm' as [i Hi].
    pose proof (lookup_lt_Some _ _ _ Hi) as Hlt. unfold vec, tensor in Hi.
    rewrite Hvec in Hlt. rewrite lookup_tabulate in Hi by done.
    injection Hi as <-. now rewrite length_tabulate. }
  exists net. split; [exact Hnet|].
  destruct Hext as (_ & _ & Hids & Hverts & Hedges). split; [split|].
  - rewrite Hids. unfold net0. cbn. rewrite map_tabulate. cbn.
    unfold tabulate. apply map_id.
  - rewrite Hedges. unfold net0. cbn. rewrite endpoints_edgesOf. now rewrite Hvec.
  - rewrite Hverts. unfold net0. cbn. now rewrite map_tabulate.
Qed.

(** The positions that [phaseLagIndex] gives to the nodes: node [i] gets
    row [i] of the geometry when there is one; otherwise the last row of the
    geometry, and the origin only when the geometry has no row. *)
Lemma phaseLagIndex_positions first l matVert iNfft0 w :
  validRun first l iNfft0 w →
  ∃ net, phaseLagIndex l matVert iNfft0 w = Some net ∧
    ∀ i, (i < rows first)%nat →
      nodeVert <$> netNodes net !! i
      = Some (default (default zeroVert (last matVert)) (matVert !! i)).
Proof.
  intros Hrun.
  destruct (phaseLagIndex_graph first l matVert iNfft0 w Hrun)
    as (net & Hnet & _ & Hverts).
  exists net. split; [exact Hnet|]. intros i Hi.
  rewrite <- list_lookup_fmap. change (nodeVert <$> netNodes net)
    with (map nodeVert (netNodes net)).
  rewrite Hverts, lookup_tabulate by done. now rewrite vertState_S.
Qed.

(** C1, as amended. The estimator has no trial-count check and reports
    no error for fewer than two trials. With no trial ([T = 0]),
    [computeUnbiasedSquaredPLI] stops at the access to the first trial and
    returns nothing, and [unbiasedSquaredPhaseLagIndex] returns the empty
    network that carries its name. With a single trial ([T = 1]) on a valid
    run, [computeUnbiasedSquaredPLI] returns a tensor, every entry of which
    is non-finite, [-Inf] where the entry of [computePLI] is zero and NaN
    where it is one (the division is by [T - 1 = 0]), and
    [unbiasedSquaredPhaseLagIndex] returns a network. *)
Theorem computeUnbiasedSquaredPLI_no_trial_count_check first m matVert iNfft0 w :
  validRun first [m] iNfft0 w →
  let iNfft := fftLength iNfft0 (Z.of_nat (cols first)) in
  computeUnbiasedSquaredPLI [] iNfft0 w = None ∧
  unbiasedSquaredPhaseLagIndex [] matVert iNfft0 w
  = Some (mkNetwork "Unbiased Squared Phase Lag Index" [] []) ∧
  ∃ p u net,
    computePLI [m] iNfft0 w = Some p ∧
    computeUnbiasedSquaredPLI [m] iNfft0 w = Some u ∧
    unbiasedSquaredPhaseLagIndex [m] matVert iNfft0 w = Some net ∧
    ∀ i k f,
      (i < rows first)%nat → (k < rows first)%nat →
      (f < Z.to_nat (numFreqs iNfft))%nat →
      (entry p i k f = Some zero ∧ entry u i k f = Some NInf) ∨
      (entry p i k f = Some one ∧ entry u i k f = Some NaN).
Proof.
  intros Hrun iNfft. split; [reflexivity|]. split; [reflexivity|].
  destruct (phaseLagIndex_graph first [m] matVert iNfft0 w Hrun)
    as (a & Ha & _).
  rewrite unbiasedSquaredPhaseLagIndex_fmap, Ha.
  rewrite computeUnbiasedSquaredPLI_fmap, (computePLI_closed _ _ _ _ Hrun).
  eexists. eexists. eexists. split; [reflexivity|]. split; [reflexivity|].
  split; [reflexivity|].
  intros i k f Hi Hk Hf. rewrite entry_map_cwise, entry_tensor by done.
  cbn [fmap option_fmap option_map].
  destruct (unbias_one_trial
              (signSum (generateTapers (Z.of_nat (cols first)) w) iNfft
                       [m] i k f))
    as [[Hp Hu]|[Hp Hu]]; [apply (signSum_bound _ _ [m])| |].
  - left. split; f_equal; assumption.
  - right. split; f_equal; assumption.
Qed.

(** C4, as amended. Every trial of the list, whatever its own sample
    count, is processed in the spectral window of the first trial: with the
    tapers generated for the sample count [n0] of the first trial, and with
    the FFT length [max (requested FFT length) n0]. The result of
    [computePLI] depends on the spectral routines through their values at
    this window only: other routines that agree with them there give the
    same result, whatever they return for the sample counts of the other
    trials; and the tensor returned has the frequency bins of this window,
    [floor (max (requested FFT length) n0 / 2) + 1]. *)
Theorem computePLI_first_trial_window (other : Spectral) l iNfft0 w first :
  l !! 0%nat = Some first →
  let n0 := Z.of_nat (cols first) in
  let iNfft := Z.max iNfft0 n0 in
  let tapers := @generateTapers spectral n0 w in
  @generateTapers other n0 w = tapers →
  (∀ r, @computeTaperedSpectra other r tapers.1 iNfft
        = @computeTaperedSpectra spectral r tapers.1 iNfft) →
  (∀ a b, @csdFromTaperedSpectra other a b tapers.2 tapers.2 iNfft one
          = @csdFromTaperedSpectra spectral a b tapers.2 tapers.2 iNfft one) →
  @computePLI other l iNfft0 w = @computePLI spectral l iNfft0 w ∧
  ∀ v, @computePLI spectral l iNfft0 w = Some v →
       length v = rows first ∧
       Forall (λ m : MatrixXd,
                 length m = rows first ∧
                 Forall (λ r, length r = Z.to_nat (iNfft / 2 + 1)) m) v.
Proof.
  intros Hfirst n0 iNfft tapers Htapers Hspectra Hcsd. split.
  - unfold computePLI. rewrite Hfirst. cbn [mbind option_bind].
    cbn zeta. rewrite fftLength_max. fold n0 iNfft. rewrite Htapers.
    fold tapers.
    assert (E : ∀ acc,
              foldlM (@accumulateTrial other tapers iNfft (rows first)
                        (Z.to_nat (numFreqs iNfft))) acc l
              = foldlM (@accumulateTrial spectral tapers iNfft (rows first)
                          (Z.to_nat (numFreqs iNfft))) acc l).
    { intros acc. apply foldlM_ext. intros a m _.
      now apply accumulateTrial_ext. }
    now rewrite E.
  - intros v Hv.
    pose proof (@computePLI_Some_validRun spectral _ _ _ _ _ Hfirst Hv) as Hrun.
    rewrite (@computePLI_closed spectral _ _ _ _ Hrun) in Hv.
    injection Hv as <-.
    rewrite fftLength_max. fold n0 iNfft. apply tensor_shape.
Qed.

(** C7. On a valid run over a non-empty list of trials with [N] channels,
    both assembly functions return a network with exactly [N] nodes, of
    indices [0] to [N - 1] in this order, and exactly [N * N] edges, one per
    ordered pair [(i, j)] in row-major order, self-pairs included. *)
Theorem network_nodes_edges first l matVert iNfft0 w :
  validRun first l iNfft0 w →
  let N := rows first in
  ∃ a b, phaseLagIndex l matVert iNfft0 w = Some a ∧
         unbiasedSquaredPhaseLagIndex l matVert iNfft0 w = Some b ∧
         denseGraph N a ∧ denseGraph N b ∧
         length (netNodes a) = N ∧ length (netEdges a) = (N * N)%nat ∧
         length (netNodes b) = N ∧ length (netEdges b) = (N * N)%nat.
Proof.
  intros Hrun N.
  destruct (phaseLagIndex_graph first l matVert iNfft0 w Hrun)
    as (a & Ha & Hda & _).
  exists a. eexists. split; [exact Ha|].
  rewrite unbiasedSquaredPhaseLagIndex_fmap, Ha. split; [reflexivity|].
  pose proof (sameStructure_mapWeights "Unbiased Squared Phase Lag Index"
                (unbias (Z.of_nat (length l))) a) as (Hlen & Hids & _ & Hends).
  assert (Hdb : denseGraph N (mapWeights "Unbiased Squared Phase Lag Index"
                                (unbias (Z.of_nat (length l))) a)).
  { destruct Hda as [H1 H2]. split; [now rewrite <- Hids|now rewrite <- Hends]. }
  assert (Hcount : ∀ net, denseGraph N net →
            length (netNodes net) = N ∧ length (netEdges net) = (N * N)%nat).
  { intros net [H1 H2]. split.
    - rewrite <- (length_map nodeId), H1. apply length_seq.
    - rewrite <- (length_map endpoints), H2, length_prod. now rewrite length_seq. }
  destruct (Hcount _ Hda), (Hcount _ Hdb). auto 10.
Qed.

(** C10. On every input, [phaseLagIndex] and
    [unbiasedSquaredPhaseLagIndex] both fail or both return a network, and
    the two networks have the same graph structure: as many nodes, the same
    node indices and positions, and the same sequence of edge end points. *)
Theorem networks_sameStructure l matVert iNfft w :
  option_Forall2 sameStructure
    (phaseLagIndex l matVert iNfft w)
    (unbiasedSquaredPhaseLagIndex l matVert iNfft w).
Proof.
  rewrite unbiasedSquaredPhaseLagIndex_fmap.
  destruct (phaseLagIndex l matVert iNfft w) as [a|]; constructor.
  apply sameStructure_mapWeights.
Qed.

End Specification.

Section Examples.

#[local] Existing Instance Toy.spectral.

(** The side conditions on concrete indices. *)
Ltac in_range := vm_compute; lia.

(** The side conditions on concrete trials: channel counts, and rows with
    samples. *)
Ltac trials_ok := repeat (constructor; try done).

Lemma Toy_run_two_trials :
  validRun Toy.trialA [Toy.trialA; Toy.trialB] 2 "hanning".
Proof.
  apply Toy_validRun; [reflexivity|trials_ok..].
Defined.

Lemma Toy_run_one_trial : validRun Toy.trialA [Toy.trialA] 2 "hanning".
Proof.
  apply Toy_validRun; [reflexivity|trials_ok..].
Defined.

Lemma computePLI_formula_witness :
  validRun Toy.trialA [Toy.trialA; Toy.trialB] 2 "hanning" ∧
  ∃ v zs,
    computePLI [Toy.trialA; Toy.trialB] 2 "hanning" = Some v ∧
    mapM (λ m, csdCoeff (generateTapers 4 "hanning") 4 m 0 1 2)
         [Toy.trialA; Toy.trialB] = Some zs ∧
    entry v 0 1 2
    = Some (abs (mul (div one (of_nat 2)) (sum (map (λ z, sign (imag z)) zs)))).
Proof.
  split; [exact Toy_run_two_trials|].
  destruct (computePLI_formula Toy.trialA [Toy.trialA; Toy.trialB] 2 "hanning"
              Toy_run_two_trials) as ((v & Hv & Hentry) & _).
  destruct (Hentry 0%nat 1%nat 2%nat) as (zs & Hzs & Hval);
    [in_range..|].
  exists v, zs. auto.
Defined.

Lemma computePLI_range_witness :
  validRun Toy.trialA [Toy.trialA; Toy.trialB] 2 "hanning" ∧
  ∃ v q, computePLI [Toy.trialA; Toy.trialB] 2 "hanning" = Some v ∧
         entry v 0 1 2 = Some (Fin q) ∧ (0 <= q)%Qc ∧ (q <= 1)%Qc.
Proof.
  split; [exact Toy_run_two_trials|].
  destruct (computePLI_range Toy.trialA [Toy.trialA; Toy.trialB] 2 "hanning"
              Toy_run_two_trials) as (v & Hv & Hentry).
  destruct (Hentry 0%nat 1%nat 2%nat) as (q & Hq); [in_range..|].
  exists v, q. auto.
Defined.

Lemma computePLI_symmetric_witness :
  validRun Toy.trialA [Toy.trialA; Toy.trialB] 2 "hanning" ∧
  csdConjugate Toy.trialA [Toy.trialA; Toy.trialB] 2 "hanning" ∧
  ∃ v x, computePLI [Toy.trialA; Toy.trialB] 2 "hanning" = Some v ∧
         entry v 0 1 2 = Some x ∧ entry v 1 0 2 = Some x.
Proof.
  split; [exact Toy_run_two_trials|]. split; [apply Toy_csdConjugate|].
  destruct (computePLI_symmetric Toy.trialA [Toy.trialA; Toy.trialB] 2 "hanning"
              Toy_run_two_trials (Toy_csdConjugate _ _ _ _)) as (v & Hv & Hentry).
  destruct (Hentry 0%nat 1%nat 2%nat) as (x & Hx); [in_range..|].
  exists v, x. auto.
Defined.

Lemma computeUnbiasedSquaredPLI_transform_witness :
  validRun Toy.trialA [Toy.trialA; Toy.trialB] 2 "hanning" ∧
  ∃ p u, computePLI [Toy.trialA; Toy.trialB] 2 "hanning" = Some p ∧
         computeUnbiasedSquaredPLI [Toy.trialA; Toy.trialB] 2 "hanning" = Some u ∧
         u = map (cwise (λ x, div (sub (mul (of_Z 2) (square x)) one) (of_Z 1))) p.
Proof.
  split; [exact Toy_run_two_trials|].
  destruct (computeUnbiasedSquaredPLI_transform
              Toy.trialA [Toy.trialA; Toy.trialB] 2 "hanning" Toy_run_two_trials)
    as (p & u & Hp & Hu & Heq & _).
  exists p, u. auto.
Defined.

Lemma computeUnbiasedSquaredPLI_no_trial_count_check_witness :
  validRun Toy.trialA [Toy.trialA] 2 "hanning" ∧
  computeUnbiasedSquaredPLI [] 2 "hanning" = None ∧
  unbiasedSquaredPhaseLagIndex [] [] 2 "hanning"
  = Some (mkNetwork "Unbiased Squared Phase Lag Index" [] []) ∧
  ∃ p u net,
    computePLI [Toy.trialA] 2 "hanning" = Some p ∧
    computeUnbiasedSquaredPLI [Toy.trialA] 2 "hanning" = Some u ∧
    unbiasedSquaredPhaseLagIndex [Toy.trialA] [] 2 "hanning" = Some net ∧
    ((entry p 0 1 2 = Some zero ∧ entry u 0 1 2 = Some NInf) ∨
     (entry p 0 1 2 = Some one ∧ entry u 0 1 2 = Some NaN)).
Proof.
  split; [exact Toy_run_one_trial|].
  destruct (computeUnbiasedSquaredPLI_no_trial_count_check
              Toy.trialA Toy.trialA [] 2 "hanning" Toy_run_one_trial)
    as (H0 & H0' & p & u & net & Hp & Hu & Hnet & Hentry).
  split; [exact H0|]. split; [exact H0'|].
  exists p, u, net. split; [exact Hp|]. split; [exact Hu|].
  split; [exact Hnet|]. apply Hentry; in_range.
Defined.

(** C1, the counterexample: with fewer than two trials no error is
    reported. With one trial [computeUnbiasedSquaredPLI] returns a tensor of
    [-Inf] and NaN, and [unbiasedSquaredPhaseLagIndex] a network whose edges
    carry these weights; with no trial [unbiasedSquaredPhaseLagIndex]
    returns the empty network. *)
Lemma computeUnbiasedSquaredPLI_fewer_than_two_trials_no_error :
  computeUnbiasedSquaredPLI [Toy.trialA] 2 "hanning"
  = Some [[[NInf; NInf; NInf]; [NInf; NaN; NaN]];
          [[NInf; NaN; NaN]; [NInf; NInf; NInf]]] ∧
  (map matWeight ∘ netEdges)
    <$> unbiasedSquaredPhaseLagIndex [Toy.trialA] [] 2 "hanning"
  = Some [[NInf; NInf; NInf]; [NInf; NaN; NaN];
          [NInf; NaN; NaN]; [NInf; NInf; NInf]] ∧
  unbiasedSquaredPhaseLagIndex [] [] 2 "hanning"
  = Some (mkNetwork "Unbiased Squared Phase Lag Index" [] []).
Proof.
  split; [vm_compute; reflexivity|]. split; [vm_compute; reflexivity|].
  reflexivity.
Qed.

Lemma computePLI_first_trial_window_witness :
  [Toy.trialA; Toy.trialLong] !! 0%nat = Some Toy.trialA ∧
  is_Some (@computePLI Toy.spectral [Toy.trialA; Toy.trialLong] 2 "hanning") ∧
  @computePLI (Toy.spectralAt 4) [Toy.trialA; Toy.trialLong] 2 "hanning"
  = @computePLI Toy.spectral [Toy.trialA; Toy.trialLong] 2 "hanning" ∧
  ∀ v, @computePLI Toy.spectral [Toy.trialA; Toy.trialLong] 2 "hanning"
       = Some v →
       length v = 2%nat ∧
       Forall (λ m : MatrixXd,
                 length m = 2%nat ∧ Forall (λ r, length r = 3%nat) m) v.
Proof.
  split; [reflexivity|]. split; [vm_compute; eauto|].
  apply (@computePLI_first_trial_window Toy.spectral (Toy.spectralAt 4)
           [Toy.trialA; Toy.trialLong] 2 "hanning" Toy.trialA);
    reflexivity.
Defined.

(** C4, the counterexample: the second trial has eight samples, and is
    processed with the taper length and the FFT length four of the first
    trial. The tensor has the three frequency bins of the FFT length four,
    not the five of the FFT length eight that the trial gets when it is the
    first one; and the run does not depend on what the routines return for
    the FFT length eight, while it fails with routines that return nothing
    for the FFT length four. *)
Lemma computePLI_not_own_window :
  cols Toy.trialA = 4%nat ∧ cols Toy.trialLong = 8%nat ∧
  numFreqs (Z.max 2 4) = 3 ∧ numFreqs (Z.max 2 8) = 5 ∧
  map (map length)
    <$> @computePLI Toy.spectral [Toy.trialA; Toy.trialLong] 2 "hanning"
  = Some [[3; 3]; [3; 3]]%nat ∧
  map (map length) <$> @computePLI Toy.spectral [Toy.trialLong] 2 "hanning"
  = Some [[5; 5]; [5; 5]]%nat ∧
  @computePLI (Toy.spectralAt 4) [Toy.trialA; Toy.trialLong] 2 "hanning"
  = @computePLI Toy.spectral [Toy.trialA; Toy.trialLong] 2 "hanning" ∧
  @computePLI (Toy.spectralAt 8) [Toy.trialA; Toy.trialLong] 2 "hanning"
  = None.
Proof.
  repeat split; vm_compute; reflexivity.
Qed.

Lemma network_nodes_edges_witness :
  validRun Toy.trialA [Toy.trialA; Toy.trialB] 2 "hanning" ∧
  ∃ a b,
    phaseLagIndex [Toy.trialA; Toy.trialB] [] 2 "hanning" = Some a ∧
    unbiasedSquaredPhaseLagIndex [Toy.trialA; Toy.trialB] [] 2 "hanning"
    = Some b ∧
    map nodeId (netNodes a) = [0; 1]%nat ∧
    map endpoints (netEdges a) = [(0, 0); (0, 1); (1, 0); (1, 1)]%nat ∧
    map nodeId (netNodes b) = [0; 1]%nat ∧
    map endpoints (netEdges b) = [(0, 0); (0, 1); (1, 0); (1, 1)]%nat.
Proof.
  split; [exact Toy_run_two_trials|].
  destruct (network_nodes_edges Toy.trialA [Toy.trialA; Toy.trialB] [] 2
              "hanning" Toy_run_two_trials)
    as (a & b & Ha & Hb & [Ha1 Ha2] & [Hb1 Hb2] & _).
  exists a, b. auto 10.
Defined.

(** C5, on the failing input. With two channels and a geometry of one row
    [(1, 2, 3)], the second node does not get the origin: both assembly
    functions give it the position of the first node, the value that
    [rowVert] still holds from the previous iteration. *)
Theorem phaseLagIndex_stale_position :
  let matVert := [(Toy.d 1, Toy.d 2, Toy.d 3)] in
  (map nodeVert ∘ netNodes) <$> phaseLagIndex [Toy.trialA] matVert 4 "hanning"
  = Some [(Toy.d 1, Toy.d 2, Toy.d 3); (Toy.d 1, Toy.d 2, Toy.d 3)] ∧
  (map nodeVert ∘ netNodes)
    <$> unbiasedSquaredPhaseLagIndex [Toy.trialA; Toy.trialB] matVert 4 "hanning"
  = Some [(Toy.d 1, Toy.d 2, Toy.d 3); (Toy.d 1, Toy.d 2, Toy.d 3)] ∧
  (Toy.d 1, Toy.d 2, Toy.d 3) ≠ zeroVert.
Proof.
  cbn zeta. split; [vm_compute; reflexivity|].
  split; [vm_compute; reflexivity|].
  intros H. inversion H.
Qed.

End Examples.

(** * Further properties of the four functions *)

Section Behaviour.

Context {spectral : Spectral}.

Lemma cwise_shape {A B} (g : A → B) n c (p : list (list (list A))) :
  Forall (λ m, length m = n ∧ Forall (λ r, length r = c) m) p →
  Forall (λ m, length m = n ∧ Forall (λ r, length r = c) m) (map (cwise g) p).
Proof.
  intros Hp. apply Forall_fmap. eapply Forall_impl; [exact Hp|].
  cbn. intros m [Hm Hr]. unfold cwise. rewrite length_map. split; [done|].
  apply Forall_fmap. eapply Forall_impl; [exact Hr|].
  cbn. intros r Hlen. now rewrite length_map.
Qed.

(** X1. On a valid run the tensors of [computePLI] and of
    [computeUnbiasedSquaredPLI] have the same shape: as many matrices as the
    first trial has channels, each with one row per channel and
    [floor (max (requested FFT length) (sample count) / 2) + 1] columns. *)
Theorem computePLI_shape first l iNfft w :
  validRun first l iNfft w →
  let N := rows first in
  let F := Z.to_nat (Z.max iNfft (Z.of_nat (cols first)) / 2 + 1) in
  ∃ p u, computePLI l iNfft w = Some p ∧
         computeUnbiasedSquaredPLI l iNfft w = Some u ∧
         length p = N ∧ length u = N ∧
         Forall (λ m, length m = N ∧ Forall (λ r, length r = F) m) p ∧
         Forall (λ m, length m = N ∧ Forall (λ r, length r = F) m) u.
Proof.
  intros Hrun N F.
  rewrite computeUnbiasedSquaredPLI_fmap, (computePLI_closed _ _ _ _ Hrun).
  eexists. eexists. split; [reflexivity|]. split; [reflexivity|].
  rewrite length_map.
  destruct (tensor_shape (rows first)
              (Z.to_nat (numFreqs (fftLength iNfft (Z.of_nat (cols first)))))
              (λ i k f, div (of_Z (Z.abs (signSum
                 (generateTapers (Z.of_nat (cols first)) w)
                 (fftLength iNfft (Z.of_nat (cols first))) l i k f)))
                 (of_nat (length l)))) as [Hlen Hshape].
  rewrite fftLength_max in Hlen, Hshape. unfold numFreqs in Hlen, Hshape.
  rewrite fftLength_max. unfold numFreqs.
  split; [exact Hlen|]. split; [exact Hlen|]. split; [exact Hshape|].
  apply cwise_shape. exact Hshape.
Qed.

(** X2. [computePLI] returns a tensor exactly on the valid runs: the list
    is not empty, every trial has the channels of the first one, every row
    of every trial has at least one sample, and every cross-spectrum has one
    coefficient per frequency bin. *)
Theorem computePLI_succeeds_iff l iNfft w :
  is_Some (computePLI l iNfft w) ↔ ∃ first, validRun first l iNfft w.
Proof.
  split.
  - intros [v Hv]. destruct (computePLI_nonempty _ _ _ _ Hv) as [first Hfirst].
    exists first. exact (computePLI_Some_validRun _ _ _ _ _ Hfirst Hv).
  - intros [first Hrun]. rewrite (computePLI_closed _ _ _ _ Hrun). eauto.
Qed.

(** X3. When some trial has fewer channels than the first one, the access
    to its missing row is out of range, and none of the four functions
    returns a result. *)
Theorem missing_channel_fails l matVert iNfft w first m :
  l !! 0%nat = Some first → m ∈ l → (rows m < rows first)%nat →
  computePLI l iNfft w = None ∧
  computeUnbiasedSquaredPLI l iNfft w = None ∧
  phaseLagIndex l matVert iNfft w = None ∧
  unbiasedSquaredPhaseLagIndex l matVert iNfft w = None.
Proof.
  intros Hfirst Hm Hlt.
  assert (Hnone : computePLI l iNfft w = None).
  { destruct (computePLI l iNfft w) as [v|] eqn:Hv; [|done]. exfalso.
    destruct (computePLI_Some_validRun _ _ _ _ _ Hfirst Hv) as (_ & Hrows & _).
    rewrite Forall_forall in Hrows. specialize (Hrows m Hm). lia. }
  assert (Hpli : phaseLagIndex l matVert iNfft w = None).
  { destruct l as [|first' l']; [done|]. unfold phaseLagIndex. cbn zeta.
    rewrite createNodes_closed, Hnone. reflexivity. }
  split; [exact Hnone|].
  split; [now rewrite computeUnbiasedSquaredPLI_fmap, Hnone|].
  split; [exact Hpli|].
  now rewrite unbiasedSquaredPhaseLagIndex_fmap, Hpli.
Qed.

(** X18. When some trial has a row without any sample, the mean of that
    row is the reduction of an empty block, and none of the four functions
    returns a result. *)
Theorem empty_row_fails l matVert iNfft w m :
  m ∈ l → [] ∈ m →
  computePLI l iNfft w = None ∧
  computeUnbiasedSquaredPLI l iNfft w = None ∧
  phaseLagIndex l matVert iNfft w = None ∧
  unbiasedSquaredPhaseLagIndex l matVert iNfft w = None.
Proof.
  intros Hm Hr.
  assert (Hnone : computePLI l iNfft w = None).
  { destruct (computePLI l iNfft w) as [v|] eqn:Hv; [|done]. exfalso.
    destruct (computePLI_nonempty _ _ _ _ Hv) as [first Hfirst].
    destruct (computePLI_Some_validRun _ _ _ _ _ Hfirst Hv)
      as (_ & _ & Hne & _).
    rewrite Forall_forall in Hne. specialize (Hne m Hm).
    rewrite Forall_forall in Hne. now apply (Hne [] Hr). }
  assert (Hpli : phaseLagIndex l matVert iNfft w = None).
  { destruct l as [|first' l']; [now apply elem_of_nil in Hm|].
    unfold phaseLagIndex. cbn zeta.
    rewrite createNodes_closed, Hnone. reflexivity. }
  split; [exact Hnone|].
  split; [now rewrite computeUnbiasedSquaredPLI_fmap, Hnone|].
  split; [exact Hpli|].
  now rewrite unbiasedSquaredPhaseLagIndex_fmap, Hpli.
Qed.

(** X4. A requested FFT length that does not exceed the sample count of
    the first trial is raised to it: the four functions give the same result
    as for a request of exactly that sample count. *)
Theorem fft_length_floor l matVert iNfft w first :
  l !! 0%nat = Some first → iNfft <= Z.of_nat (cols first) →
  let n0 := Z.of_nat (cols first) in
  computePLI l iNfft w = computePLI l n0 w ∧
  computeUnbiasedSquaredPLI l iNfft w = computeUnbiasedSquaredPLI l n0 w ∧
  phaseLagIndex l matVert iNfft w = phaseLagIndex l matVert n0 w ∧
  unbiasedSquaredPhaseLagIndex l matVert iNfft w
  = unbiasedSquaredPhaseLagIndex l matVert n0 w.
Proof.
  intros Hfirst Hle n0.
  assert (Hc : computePLI l iNfft w = computePLI l n0 w).
  { unfold computePLI. rewrite Hfirst. cbn. fold n0.
    now rewrite !fftLength_max, (Z.max_r iNfft n0), Z.max_id by lia. }
  assert (Hp : phaseLagIndex l matVert iNfft w = phaseLagIndex l matVert n0 w).
  { destruct l as [|first' l']; [done|]. unfold phaseLagIndex. cbn zeta.
    rewrite !createNodes_closed. now rewrite Hc. }
  split; [exact Hc|].
  split; [now rewrite !computeUnbiasedSquaredPLI_fmap, Hc|].
  split; [exact Hp|].
  now rewrite !unbiasedSquaredPhaseLagIndex_fmap, Hp.
Qed.

End Behaviour.

Section Sums.

Context {spectral : Spectral}.

Lemma signSum_Permutation tapers iNfft l l' j k f :
  l ≡ₚ l' → signSum tapers iNfft l j k f = signSum tapers iNfft l' j k f.
Proof.
  unfold signSum. induction 1 as [|m l l' _ IH|m1 m2 l|l1 l2 l3 _ IH1 _ IH2];
    cbn [map foldr]; lia.
Qed.

Lemma signSum_const tapers iNfft l j k f s :
  (∀ m, m ∈ l → signAt tapers iNfft m j k f = s) →
  signSum tapers iNfft l j k f = s * Z.of_nat (length l).
Proof.
  unfold signSum. induction l as [|m l IH]; intros H; cbn [map foldr length].
  - lia.
  - rewrite IH by (intros; apply H; now apply list_elem_of_further).
    rewrite H by apply list_elem_of_here. lia.
Qed.

Lemma signZ_self_neg x : x = neg x → signZ x = 0.
Proof.
  intros H. assert (Hn : signZ x = - signZ x).
  { rewrite H at 1. apply signZ_neg. }
  lia.
Qed.

Lemma of_Z_inj a b : of_Z a = of_Z b → a = b.
Proof. unfold of_Z. intros H. apply Qc_of_Z_inj. congruence. Qed.

Lemma signZ_pos x : ltb zero x = true → signZ x = 1.
Proof.
  intros H. pose proof (sign_pos x H) as Hs. rewrite sign_signZ in Hs.
  now apply of_Z_inj.
Qed.

Lemma signZ_neg_one x : ltb x zero = true → signZ x = -1.
Proof.
  intros H. pose proof (sign_neg x H) as Hs. rewrite sign_signZ in Hs.
  now apply of_Z_inj.
Qed.

Lemma div_zero_of_nat (T : nat) : (0 < T)%nat → div (of_Z 0) (of_nat T) = zero.
Proof.
  intros HT. unfold of_nat. rewrite div_of_Z_Fin by lia. unfold zero, of_Z.
  f_equal. change (Q2Qc (inject_Z 0)) with 0%Qc. unfold Qcdiv.
  apply Qcmult_0_l.
Qed.

Lemma div_self_of_Z t : t ≠ 0 → div (of_Z t) (of_Z t) = one.
Proof.
  intros Ht. rewrite div_of_Z_Fin by done. unfold one, of_Z. f_equal.
  change (Q2Qc (inject_Z 1)) with 1%Qc. unfold Qcdiv.
  apply Qcmult_inv_r. now apply Qc_of_Z_neq0.
Qed.

Lemma unbias_one T : 2 <= T → unbias T one = one.
Proof.
  intros HT. unfold unbias, square, one. rewrite !mul_of_Z, sub_of_Z.
  replace (T * (1 * 1) - 1) with (T - 1) by lia. apply div_self_of_Z. lia.
Qed.

Lemma validRun_Permutation first first' l l' iNfft w :
  validRun first l iNfft w → l' ≡ₚ l → l' !! 0%nat = Some first' →
  rows first' = rows first → cols first' = cols first →
  validRun first' l' iNfft w.
Proof.
  intros (_ & Hrows & Hne & Hcsd) Hperm Hfirst' Hr Hc.
  split; [done|]. split; [|split].
  - rewrite Hr. now rewrite Hperm.
  - now rewrite Hperm.
  - cbn zeta in *. rewrite Hr, Hc. intros m i k c Hm. apply Hcsd.
    now rewrite <- Hperm.
Qed.

(** X5. The order of the trials does not matter: a permutation of the
    list whose first trial has the same channel and sample counts gives the
    same results, the same tensors on a valid run and no tensor
    otherwise. *)
Theorem computePLI_permutation first first' l l' iNfft w :
  l !! 0%nat = Some first → l' ≡ₚ l → l' !! 0%nat = Some first' →
  rows first' = rows first → cols first' = cols first →
  computePLI l' iNfft w = computePLI l iNfft w ∧
  computeUnbiasedSquaredPLI l' iNfft w = computeUnbiasedSquaredPLI l iNfft w.
Proof.
  intros Hfirst Hperm Hfirst' Hr Hc.
  assert (Hvalid : ∀ Hrun : validRun first l iNfft w,
            computePLI l' iNfft w = computePLI l iNfft w).
  { intros Hrun.
    pose proof (validRun_Permutation _ _ _ _ _ _ Hrun Hperm Hfirst' Hr Hc)
      as Hrun'.
    rewrite (computePLI_closed _ _ _ _ Hrun), (computePLI_closed _ _ _ _ Hrun').
    rewrite Hr, Hc, (Permutation_length Hperm). f_equal.
    apply tensor_ext. intros i k f _ _ _.
    now rewrite (signSum_Permutation _ _ _ _ _ _ _ Hperm). }
  assert (Hp : computePLI l' iNfft w = computePLI l iNfft w).
  { destruct (computePLI l iNfft w) as [v|] eqn:Hv.
    - apply Hvalid.
      exact (computePLI_Some_validRun _ _ _ _ _ Hfirst Hv).
    - destruct (computePLI l' iNfft w) as [v'|] eqn:Hv'; [|done]. exfalso.
      pose proof (computePLI_Some_validRun _ _ _ _ _ Hfirst' Hv') as Hrun'.
      assert (Hrun : validRun first l iNfft w).
      { apply (validRun_Permutation first' first l' l); done. }
      rewrite (computePLI_closed _ _ _ _ Hrun) in Hv. done. }
  split; [exact Hp|].
  now rewrite !computeUnbiasedSquaredPLI_fmap, Hp, (Permutation_length Hperm).
Qed.

(** X6. When swapping the two channels conjugates the cross-spectrum, the
    phase lag index of a channel with itself is zero at every frequency
    bin. *)
Theorem computePLI_diagonal first l iNfft0 w :
  validRun first l iNfft0 w →
  csdConjugate first l iNfft0 w →
  let iNfft := fftLength iNfft0 (Z.of_nat (cols first)) in
  ∃ v, computePLI l iNfft0 w = Some v ∧
    ∀ i f, (i < rows first)%nat → (f < Z.to_nat (numFreqs iNfft))%nat →
           entry v i i f = Some zero.
Proof.
  intros Hrun Hconj iNfft.
  eexists. split; [apply (computePLI_closed _ _ _ _ Hrun)|].
  intros i f Hi Hf. rewrite entry_tensor by done. f_equal.
  rewrite (signSum_const _ _ _ _ _ _ 0).
  - cbn [Z.mul Z.abs]. apply div_zero_of_nat.
    apply (validRun_nonempty _ _ _ _ Hrun).
  - intros m Hm. unfold signAt. apply signZ_self_neg.
    eapply Hconj; [exact Hm| |]; apply (csdCoeff_coeffAt _ _ _ _ Hrun); done.
Qed.

Lemma consistent_signSum first l iNfft0 w i k f :
  validRun first l iNfft0 w →
  let iNfft := fftLength iNfft0 (Z.of_nat (cols first)) in
  let tapers := generateTapers (Z.of_nat (cols first)) w in
  (i < rows first)%nat → (k < rows first)%nat →
  (f < Z.to_nat (numFreqs iNfft))%nat →
  (∀ m z, m ∈ l → csdCoeff tapers iNfft m i k f = Some z →
          ltb zero (imag z) = true) ∨
  (∀ m z, m ∈ l → csdCoeff tapers iNfft m i k f = Some z →
          ltb (imag z) zero = true) →
  Z.abs (signSum tapers iNfft l i k f) = Z.of_nat (length l).
Proof.
  intros Hrun iNfft tapers Hi Hk Hf [Hpos|Hneg].
  - rewrite (signSum_const _ _ _ _ _ _ 1); [lia|].
    intros m Hm. apply signZ_pos. apply (Hpos m); [done|].
    apply (csdCoeff_coeffAt _ _ _ _ Hrun); done.
  - rewrite (signSum_const _ _ _ _ _ _ (-1)); [lia|].
    intros m Hm. apply signZ_neg_one. apply (Hneg m); [done|].
    apply (csdCoeff_coeffAt _ _ _ _ Hrun); done.
Qed.

(** X7. When the imaginary part of the cross-spectrum of the channels [i]
    and [k] at bin [f] is strictly positive in every trial, or strictly
    negative in every trial, the entry [(i, k, f)] of [computePLI] is one. *)
Theorem computePLI_consistent_sign first l iNfft0 w i k f :
  validRun first l iNfft0 w →
  let iNfft := fftLength iNfft0 (Z.of_nat (cols first)) in
  let tapers := generateTapers (Z.of_nat (cols first)) w in
  (i < rows first)%nat → (k < rows first)%nat →
  (f < Z.to_nat (numFreqs iNfft))%nat →
  (∀ m z, m ∈ l → csdCoeff tapers iNfft m i k f = Some z →
          ltb zero (imag z) = true) ∨
  (∀ m z, m ∈ l → csdCoeff tapers iNfft m i k f = Some z →
          ltb (imag z) zero = true) →
  ∃ v, computePLI l iNfft0 w = Some v ∧ entry v i k f = Some one.
Proof.
  intros Hrun iNfft tapers Hi Hk Hf Hsign.
  eexists. split; [apply (computePLI_closed _ _ _ _ Hrun)|].
  rewrite entry_tensor by done. f_equal.
  rewrite (consistent_signSum _ _ _ _ _ _ _ Hrun Hi Hk Hf Hsign).
  apply div_self_of_Z. pose proof (validRun_nonempty _ _ _ _ Hrun). lia.
Qed.

(** X8. Under the same condition and with at least two trials, the entry
    [(i, k, f)] of [computeUnbiasedSquaredPLI] is one as well. *)
Theorem computeUnbiasedSquaredPLI_consistent_sign first l iNfft0 w i k f :
  validRun first l iNfft0 w →
  (2 ≤ length l)%nat →
  let iNfft := fftLength iNfft0 (Z.of_nat (cols first)) in
  let tapers := generateTapers (Z.of_nat (cols first)) w in
  (i < rows first)%nat → (k < rows first)%nat →
  (f < Z.to_nat (numFreqs iNfft))%nat →
  (∀ m z, m ∈ l → csdCoeff tapers iNfft m i k f = Some z →
          ltb zero (imag z) = true) ∨
  (∀ m z, m ∈ l → csdCoeff tapers iNfft m i k f = Some z →
          ltb (imag z) zero = true) →
  ∃ u, computeUnbiasedSquaredPLI l iNfft0 w = Some u ∧
       entry u i k f = Some one.
Proof.
  intros Hrun HT iNfft tapers Hi Hk Hf Hsign.
  rewrite computeUnbiasedSquaredPLI_fmap, (computePLI_closed _ _ _ _ Hrun).
  eexists. split; [reflexivity|].
  rewrite entry_map_cwise, entry_tensor by done.
  cbn [fmap option_fmap option_map]. f_equal.
  rewrite (consistent_signSum _ _ _ _ _ _ _ Hrun Hi Hk Hf Hsign).
  unfold of_nat. rewrite div_self_of_Z by lia. apply unbias_one. lia.
Qed.

End Sums.

Section Debiasing.

Context {spectral : Spectral}.

Ltac qc_to_q :=
  unfold Qcle, Qclt, Qcminus, Qcplus, Qcmult, Qcopp, Q2Qc in *;
  cbn [this] in *; rewrite ?Qred_correct in *.

Lemma Qc_debias_lower (t q : Qc) :
  (0 <= t)%Qc → (0 <= q)%Qc → (- (1) <= t * (q * q) - 1)%Qc.
Proof. intros Ht Hq. qc_to_q. nra. Qed.

Lemma Qc_debias_upper (t q : Qc) :
  (0 <= q)%Qc → (q <= 1)%Qc → (t * (q * q) - 1 <= q * q * (t - 1))%Qc.
Proof. intros Hq0 Hq1. qc_to_q. nra. Qed.

Lemma Qc_square_le_one (q : Qc) : (0 <= q)%Qc → (q <= 1)%Qc → (q * q <= 1)%Qc.
Proof. intros Hq0 Hq1. qc_to_q. nra. Qed.

Lemma Qc_debias_bounds (t a q : Qc) :
  a = (t - 1)%Qc → (0 < a)%Qc → (0 <= t)%Qc → (0 <= q)%Qc → (q <= 1)%Qc →
  (- (1) / a <= (t * (q * q) - 1) / a)%Qc ∧
  ((t * (q * q) - 1) / a <= q * q)%Qc.
Proof.
  intros Ha Hpos Ht Hq0 Hq1.
  assert (Hinv : (0 <= / a)%Qc) by now apply Qclt_le_weak, Qcinv_pos.
  unfold Qcdiv. split.
  - apply Qcmult_le_compat_r; [|done]. now apply Qc_debias_lower.
  - rewrite <- (Qcdiv_mult_l (q * q) a) at 2
      by (intros E; rewrite E in Hpos; now apply (Qclt_not_eq _ _ Hpos)).
    unfold Qcdiv. apply Qcmult_le_compat_r; [|done].
    rewrite Ha. now apply Qc_debias_upper.
Qed.

Lemma Qc_inv_le_one (a : Qc) : (1 <= a)%Qc → (- (1) <= - (1) / a)%Qc.
Proof.
  intros Ha.
  assert (Hpos : (0 < a)%Qc) by (eapply Qclt_le_trans; [|exact Ha]; done).
  assert (Hne : a ≠ 0%Qc)
    by (intros E; rewrite E in Hpos; now apply (Qclt_not_eq _ _ Hpos)).
  assert (Hinv : (0 <= / a)%Qc) by now apply Qclt_le_weak, Qcinv_pos.
  assert (E : (- (1) = - a * / a)%Qc).
  { rewrite <- (Qcmult_inv_r a Hne) at 1. ring. }
  rewrite E at 1. unfold Qcdiv. apply Qcmult_le_compat_r; [|done].
  qc_to_q. lra.
Qed.

(** X9. With at least two trials on a valid run, every entry of
    [computeUnbiasedSquaredPLI] is finite and lies in the interval
    [[-1, 1]]. *)
Theorem computeUnbiasedSquaredPLI_bounds first l iNfft0 w :
  validRun first l iNfft0 w →
  (2 ≤ length l)%nat →
  let iNfft := fftLength iNfft0 (Z.of_nat (cols first)) in
  ∃ u, computeUnbiasedSquaredPLI l iNfft0 w = Some u ∧
    ∀ i k f,
      (i < rows first)%nat → (k < rows first)%nat →
      (f < Z.to_nat (numFreqs iNfft))%nat →
      ∃ b, entry u i k f = Some (Fin b) ∧ (- (1) <= b)%Qc ∧ (b <= 1)%Qc.
Proof.
  intros Hrun HT iNfft. set (T := Z.of_nat (length l)).
  rewrite computeUnbiasedSquaredPLI_fmap, (computePLI_closed _ _ _ _ Hrun).
  eexists. split; [reflexivity|].
  intros i k f Hi Hk Hf. rewrite entry_map_cwise, entry_tensor by done.
  cbn [fmap option_fmap option_map].
  edestruct pli_range as (q & Hq & Hq0 & Hq1);
    [apply (validRun_nonempty _ _ _ _ Hrun)|apply signSum_bound|].
  rewrite Hq. fold T. rewrite unbias_finite by lia.
  eexists. split; [reflexivity|].
  destruct (Qc_debias_bounds (Q2Qc (inject_Z T)) (Q2Qc (inject_Z (T - 1))) q)
    as [Hlow Hup]; try done.
  - change 1%Qc with (Q2Qc (inject_Z 1)). unfold Qcminus.
    now rewrite Qc_of_Z_opp, Qc_of_Z_add.
  - change 0%Qc with (Q2Qc (inject_Z 0)). apply Qc_of_Z_lt. lia.
  - change 0%Qc with (Q2Qc (inject_Z 0)). apply Qc_of_Z_le. lia.
  - split.
    + eapply Qcle_trans; [|exact Hlow]. apply Qc_inv_le_one.
      change 1%Qc with (Q2Qc (inject_Z 1)). apply Qc_of_Z_le. lia.
    + eapply Qcle_trans; [exact Hup|]. now apply Qc_square_le_one.
Qed.

End Debiasing.

Section EdgeLoops.

Context {spectral : Spectral}.

Lemma inner_loop_closed (vec : list MatrixXd) i js net :
  (i < length (netNodes net))%nat → (i < length vec)%nat →
  Forall (λ j, (j < length (netNodes net))%nat ∧
               (j < length (nth i vec []))%nat) js →
  foldlM (λ net j, m ← vec !! i; w ← m !! j; Net.addEdge net i j w) net js
  = Some (mkNetwork (netName net) (netNodes net)
            (netEdges net
             ++ map (λ j, mkEdge i j (nth j (nth i vec []) [])) js)).
Proof.
  intros Hi Hv Hjs.
  set (step := λ net j, m ← vec !! i; w ← m !! j; Net.addEdge net i j w).
  revert net Hi Hjs.
  induction js as [|j js IH]; intros net Hi Hjs.
  - cbn. rewrite app_nil_r. now destruct net.
  - apply Forall_cons in Hjs as [[Hj Hw] Hjs].
    destruct (lookup_lt_is_Some_2 _ _ Hv) as [m Hm].
    rewrite (nth_lookup_Some _ _ [] _ Hm) in Hw.
    destruct (lookup_lt_is_Some_2 _ _ Hw) as [w Hw'].
    assert (Hs : step net j
                 = Some (mkNetwork (netName net) (netNodes net)
                           (netEdges net ++ [mkEdge i j w]))).
    { unfold step. rewrite Hm. cbn. rewrite Hw'. now apply addEdge_Some. }
    cbn [foldlM]. rewrite Hs. cbn [mbind option_bind].
    rewrite IH by done.
    cbn [netName netNodes netEdges map]. rewrite <- app_assoc. cbn [app].
    now rewrite (nth_lookup_Some _ _ [] _ Hm), (nth_lookup_Some _ _ [] _ Hw').
Qed.

Lemma outer_loop_closed (vec : list MatrixXd) name nodes r m s es :
  (s + m ≤ length nodes)%nat → (s + m ≤ length vec)%nat →
  (r ≤ length nodes)%nat →
  Forall (λ mat, (r ≤ length mat)%nat) vec →
  foldlM (λ net i,
            foldlM (λ net j, m ← vec !! i; w ← m !! j; Net.addEdge net i j w)
                   net (seq 0 r))
         (mkNetwork name nodes es) (seq s m)
  = Some (mkNetwork name nodes (es ++ edgeRows vec r s m)).
Proof.
  intros Hn Hv Hr Hvec. revert s es Hn Hv.
  induction m as [|m IH]; intros s es Hn Hv.
  - cbn. unfold edgeRows. cbn. now rewrite app_nil_r.
  - cbn [seq foldlM]. rewrite (inner_loop_closed vec s (seq 0 r)).
    + cbn [netName netNodes netEdges mbind option_bind].
      rewrite IH by lia. unfold edgeRows. cbn [seq flat_map].
      now rewrite <- app_assoc.
    + cbn. lia.
    + lia.
    + cbn. apply Forall_forall. intros j Hj.
      apply list_elem_of_In, in_seq in Hj. split; [lia|].
      destruct (lookup_lt_is_Some_2 vec s) as [mat Hmat]; [lia|].
      rewrite (nth_lookup_Some _ _ [] _ Hmat).
      rewrite Forall_forall in Hvec.
      specialize (Hvec mat (list_elem_of_lookup_2 _ _ _ Hmat)). lia.
Qed.

Lemma lookup_edgeRows (vec : list MatrixXd) r s m i j :
  (s ≤ i < s + m)%nat → (j < r)%nat →
  edgeRows vec r s m !! ((i - s) * r + j)%nat
  = Some (mkEdge i j (nth j (nth i vec []) [])).
Proof.
  revert s. induction m as [|m IH]; intros s Hi Hj; [lia|].
  unfold edgeRows. cbn [seq flat_map].
  destruct (decide (i = s)) as [->|Hne].
  - rewrite Nat.sub_diag. cbn [Nat.mul Nat.add].
    rewrite lookup_app_l by now rewrite length_map, length_seq.
    rewrite list_lookup_fmap, lookup_seq_lt by done. reflexivity.
  - rewrite lookup_app_r by (rewrite length_map, length_seq; nia).
    rewrite length_map, length_seq.
    replace ((i - s) * r + j - r)%nat with ((i - S s) * r + j)%nat by nia.
    apply (IH (S s)); lia.
Qed.

(** The network of a tensor of the right shape, in closed form. *)
Lemma assemble_closed name matVert n c e :
  let vec := tensor n c e in
  addEdges vec n (createNodes matVert n (Net.new name)).2
  = Some (mkNetwork name
            (nodesAt (λ i, vertState matVert (S i)) n)
            (edgeRows vec n 0 n)).
Proof.
  intros vec. rewrite createNodes_closed. cbn [snd Net.new netName netNodes netEdges app].
  unfold addEdges.
  assert (Hlen : length vec = n) by apply length_tabulate. rewrite Hlen.
  rewrite (outer_loop_closed vec name _ n n 0 []).
  - reflexivity.
  - rewrite length_tabulate. lia.
  - lia.
  - rewrite length_tabulate. lia.
  - destruct (tensor_shape n c e) as [_ Hshape].
    eapply Forall_impl; [exact Hshape|]. cbn. intros mat [-> _]. done.
Qed.

End EdgeLoops.

Section NetworkBehaviour.

Context {spectral : Spectral}.

Lemma phaseLagIndex_closed first l matVert iNfft0 w :
  validRun first l iNfft0 w →
  ∃ p, computePLI l iNfft0 w = Some p ∧
       (length p = rows first ∧
        Forall (λ m, length m = rows first) p) ∧
       phaseLagIndex l matVert iNfft0 w
       = Some (mkNetwork "Phase Lag Index"
                 (nodesAt (λ i, vertState matVert (S i)) (rows first))
                 (edgeRows p (rows first) 0 (rows first))).
Proof.
  intros Hrun. pose proof Hrun as (Hfirst & _).
  eexists. split; [apply (computePLI_closed _ _ _ _ Hrun)|].
  split.
  { split; [apply length_tabulate|].
    eapply Forall_impl; [apply tensor_shape|]. cbn. now intros m [? _]. }
  destruct l as [|first' l']; [done|]. cbn in Hfirst. injection Hfirst as ->.
  unfold phaseLagIndex. cbn zeta.
  rewrite (computePLI_closed _ _ _ _ Hrun).
  pose proof (assemble_closed "Phase Lag Index" matVert (rows first)) as Hasm.
  cbn zeta in Hasm.
  destruct (createNodes matVert (rows first) (Net.new "Phase Lag Index"))
    as [rv net0]. cbn. apply Hasm.
Qed.

(** X10. On a valid run with [N] channels, the edge of index [i * N + j]
    of either network joins the nodes [i] and [j], and its weights are row
    [j] of matrix [i] of the tensor the network is built from. *)
Theorem network_edge_weights first l matVert iNfft0 w :
  validRun first l iNfft0 w →
  let N := rows first in
  ∃ p u a b,
    computePLI l iNfft0 w = Some p ∧
    computeUnbiasedSquaredPLI l iNfft0 w = Some u ∧
    phaseLagIndex l matVert iNfft0 w = Some a ∧
    unbiasedSquaredPhaseLagIndex l matVert iNfft0 w = Some b ∧
    ∀ i j, (i < N)%nat → (j < N)%nat →
      ∃ wp wu,
        (m ← p !! i; m !! j) = Some wp ∧
        (m ← u !! i; m !! j) = Some wu ∧
        netEdges a !! (i * N + j)%nat = Some (mkEdge i j wp) ∧
        netEdges b !! (i * N + j)%nat = Some (mkEdge i j wu).
Proof.
  intros Hrun N. subst N.
  destruct (phaseLagIndex_closed first l matVert iNfft0 w Hrun)
    as (p & Hp & [Hlen Hshape] & Ha).
  exists p. eexists. eexists. eexists. split; [exact Hp|].
  rewrite computeUnbiasedSquaredPLI_fmap, Hp. split; [reflexivity|].
  split; [exact Ha|].
  rewrite unbiasedSquaredPhaseLagIndex_fmap, Ha. split; [reflexivity|].
  intros i j Hi Hj.
  destruct (lookup_lt_is_Some_2 p i) as [m Hm]; [lia|].
  rewrite Forall_forall in Hshape.
  pose proof (Hshape m (list_elem_of_lookup_2 _ _ _ Hm)) as Hrows.
  destruct (lookup_lt_is_Some_2 m j) as [wt Hwt]; [lia|].
  exists wt, (map (unbias (Z.of_nat (length l))) wt).
  assert (He : edgeRows p (rows first) 0 (rows first)
                 !! (i * rows first + j)%nat = Some (mkEdge i j wt)).
  { pose proof (lookup_edgeRows p (rows first) 0 (rows first) i j
                  ltac:(lia) Hj) as H.
    rewrite Nat.sub_0_r in H.
    rewrite (nth_lookup_Some _ _ [] _ Hm), (nth_lookup_Some _ _ [] _ Hwt) in H.
    exact H. }
  split; [now rewrite Hm|]. split.
  - rewrite list_lookup_fmap, Hm. cbn. unfold cwise.
    now rewrite list_lookup_fmap, Hwt.
  - split; [exact He|]. unfold mapWeights. cbn [netEdges].
    now rewrite list_lookup_fmap, He.
Qed.

(** X12. On a valid run, a node whose index is below the number of rows of
    the geometry gets that row as its position, in both networks. *)
Theorem node_position_supplied first l matVert iNfft0 w :
  validRun first l iNfft0 w →
  ∃ a b,
    phaseLagIndex l matVert iNfft0 w = Some a ∧
    unbiasedSquaredPhaseLagIndex l matVert iNfft0 w = Some b ∧
    ∀ i r, (i < rows first)%nat → matVert !! i = Some r →
      nodeVert <$> netNodes a !! i = Some r ∧
      nodeVert <$> netNodes b !! i = Some r.
Proof.
  intros Hrun.
  destruct (phaseLagIndex_closed first l matVert iNfft0 w Hrun)
    as (p & _ & _ & Ha).
  eexists. eexists. split; [exact Ha|].
  rewrite unbiasedSquaredPhaseLagIndex_fmap, Ha. split; [reflexivity|].
  intros i r Hi Hr. unfold mapWeights. cbn [netNodes]. unfold nodesAt.
  rewrite lookup_tabulate by done. cbn [fmap option_fmap option_map nodeVert].
  rewrite vertState_S, Hr. done.
Qed.

(** X13. On a valid run without geometry, every node of both networks is
    at the origin. *)
Theorem node_position_without_geometry first l iNfft0 w :
  validRun first l iNfft0 w →
  ∃ a b,
    phaseLagIndex l [] iNfft0 w = Some a ∧
    unbiasedSquaredPhaseLagIndex l [] iNfft0 w = Some b ∧
    map nodeVert (netNodes a) = replicate (rows first) zeroVert ∧
    map nodeVert (netNodes b) = replicate (rows first) zeroVert.
Proof.
  intros Hrun.
  destruct (phaseLagIndex_closed first l [] iNfft0 w Hrun) as (p & _ & _ & Ha).
  eexists. eexists. split; [exact Ha|].
  rewrite unbiasedSquaredPhaseLagIndex_fmap, Ha. split; [reflexivity|].
  assert (H : map nodeVert
                (nodesAt (λ i, vertState [] (S i)) (rows first))
              = replicate (rows first) zeroVert).
  { unfold nodesAt. rewrite map_tabulate, replicate_tabulate.
    apply tabulate_ext. intros i _. cbn [nodeVert]. now rewrite vertState_S. }
  split; exact H.
Qed.

(** X14. The assembly adds no failure of its own: either function returns
    a network exactly when the trial list is empty or [computePLI] returns a
    tensor. *)
Theorem assembly_succeeds_iff l matVert iNfft w :
  (is_Some (phaseLagIndex l matVert iNfft w)
   ↔ l = [] ∨ is_Some (computePLI l iNfft w)) ∧
  (is_Some (unbiasedSquaredPhaseLagIndex l matVert iNfft w)
   ↔ l = [] ∨ is_Some (computePLI l iNfft w)).
Proof.
  assert (H : is_Some (phaseLagIndex l matVert iNfft w)
              ↔ l = [] ∨ is_Some (computePLI l iNfft w)).
  { split.
    - destruct l as [|first l']; [auto|]. intros Hs. right.
      unfold phaseLagIndex in Hs. cbn zeta in Hs.
      rewrite createNodes_closed in Hs.
      destruct (computePLI (first :: l') iNfft w); [eauto|].
      now destruct Hs.
    - intros [->|[p Hp]]; [cbn; eauto|].
      destruct (computePLI_nonempty _ _ _ _ Hp) as [first Hfirst].
      pose proof (computePLI_Some_validRun _ _ _ _ _ Hfirst Hp) as Hrun.
      destruct (phaseLagIndex_closed first l matVert iNfft w Hrun)
        as (p' & _ & _ & ->). eauto. }
  split; [exact H|].
  rewrite unbiasedSquaredPhaseLagIndex_fmap, fmap_is_Some. exact H.
Qed.

(** X15. Whatever the input, a network that [phaseLagIndex] returns is
    named "Phase Lag Index", and one that [unbiasedSquaredPhaseLagIndex]
    returns is named "Unbiased Squared Phase Lag Index". *)
Theorem network_name l matVert iNfft w :
  (∀ net, phaseLagIndex l matVert iNfft w = Some net →
          netName net = "Phase Lag Index"%string) ∧
  (∀ net, unbiasedSquaredPhaseLagIndex l matVert iNfft w = Some net →
          netName net = "Unbiased Squared Phase Lag Index"%string).
Proof.
  split.
  - intros net Hnet. destruct l as [|first l'].
    { cbn in Hnet. now injection Hnet as <-. }
    assert (Hc : is_Some (computePLI (first :: l') iNfft w)).
    { unfold phaseLagIndex in Hnet. cbn zeta in Hnet.
      rewrite createNodes_closed in Hnet.
      destruct (computePLI (first :: l') iNfft w); [eauto|done]. }
    destruct Hc as [p Hp].
    assert (Hrun : validRun first (first :: l') iNfft w)
      by (apply (computePLI_Some_validRun _ _ _ _ p); done).
    destruct (phaseLagIndex_closed first _ matVert iNfft w Hrun)
      as (p' & _ & _ & Ha).
    rewrite Ha in Hnet. now injection Hnet as <-.
  - intros net. rewrite unbiasedSquaredPhaseLagIndex_fmap.
    destruct (phaseLagIndex l matVert iNfft w); [|done]. cbn.
    intros [= <-]. reflexivity.
Qed.

End NetworkBehaviour.

Section Quantised.

Context {spectral : Spectral}.

(** X17. On a valid run over [T] trials, every entry of [computePLI] is
    [n / T] for an integer [n] between [0] and [T]. *)
Theorem computePLI_quantised first l iNfft0 w :
  validRun first l iNfft0 w →
  let iNfft := fftLength iNfft0 (Z.of_nat (cols first)) in
  let T := Z.of_nat (length l) in
  ∃ v, computePLI l iNfft0 w = Some v ∧
    ∀ i k f,
      (i < rows first)%nat → (k < rows first)%nat →
      (f < Z.to_nat (numFreqs iNfft))%nat →
      ∃ n, 0 <= n <= T ∧ entry v i k f = Some (div (of_Z n) (of_Z T)).
Proof.
  intros Hrun iNfft T. subst iNfft T.
  eexists. split; [apply (computePLI_closed _ _ _ _ Hrun)|].
  intros i k f Hi Hk Hf. rewrite entry_tensor by done.
  eexists. split; [|reflexivity].
  pose proof (signSum_bound (generateTapers (Z.of_nat (cols first)) w)
                (fftLength iNfft0 (Z.of_nat (cols first))) l i k f). lia.
Qed.

End Quantised.

Section MoreExamples.

#[local] Existing Instance Toy.spectral.

Ltac in_range := vm_compute; lia.

Lemma computePLI_shape_witness :
  validRun Toy.trialA [Toy.trialA; Toy.trialB] 2 "hanning" ∧
  ∃ p u, computePLI [Toy.trialA; Toy.trialB] 2 "hanning" = Some p ∧
         computeUnbiasedSquaredPLI [Toy.trialA; Toy.trialB] 2 "hanning"
         = Some u ∧
         length p = 2%nat ∧ length u = 2%nat ∧
         Forall (λ m, length m = 2%nat ∧ Forall (λ r, length r = 3%nat) m) p ∧
         Forall (λ m, length m = 2%nat ∧ Forall (λ r, length r = 3%nat) m) u.
Proof.
  split; [exact Toy_run_two_trials|].
  exact (computePLI_shape Toy.trialA [Toy.trialA; Toy.trialB] 2 "hanning"
           Toy_run_two_trials).
Defined.

Lemma missing_channel_fails_witness :
  let short : MatrixXd := [[Toy.d 1; Toy.d 2; Toy.d 3; Toy.d 4]] in
  [Toy.trialA; short] !! 0%nat = Some Toy.trialA ∧
  short ∈ [Toy.trialA; short] ∧
  (rows short < rows Toy.trialA)%nat ∧
  computePLI [Toy.trialA; short] 2 "hanning" = None ∧
  computeUnbiasedSquaredPLI [Toy.trialA; short] 2 "hanning" = None ∧
  phaseLagIndex [Toy.trialA; short] [] 2 "hanning" = None ∧
  unbiasedSquaredPhaseLagIndex [Toy.trialA; short] [] 2 "hanning" = None.
Proof.
  intros short.
  assert (H1 : [Toy.trialA; short] !! 0%nat = Some Toy.trialA) by reflexivity.
  assert (H2 : short ∈ [Toy.trialA; short])
    by (apply list_elem_of_further, list_elem_of_here).
  assert (H3 : (rows short < rows Toy.trialA)%nat) by (cbn; lia).
  split; [exact H1|]. split; [exact H2|]. split; [exact H3|].
  exact (missing_channel_fails [Toy.trialA; short] [] 2 "hanning"
           Toy.trialA short H1 H2 H3).
Defined.

Lemma empty_row_fails_witness :
  let flat : MatrixXd := [[]; []] in
  flat ∈ [Toy.trialA; flat] ∧ [] ∈ flat ∧
  computePLI [Toy.trialA; flat] 2 "hanning" = None ∧
  computeUnbiasedSquaredPLI [Toy.trialA; flat] 2 "hanning" = None ∧
  phaseLagIndex [Toy.trialA; flat] [] 2 "hanning" = None ∧
  unbiasedSquaredPhaseLagIndex [Toy.trialA; flat] [] 2 "hanning" = None.
Proof.
  intros flat.
  assert (H1 : flat ∈ [Toy.trialA; flat])
    by (apply list_elem_of_further, list_elem_of_here).
  assert (H2 : [] ∈ flat) by apply list_elem_of_here.
  split; [exact H1|]. split; [exact H2|].
  exact (empty_row_fails [Toy.trialA; flat] [] 2 "hanning" flat H1 H2).
Defined.

Lemma fft_length_floor_witness :
  [Toy.trialA; Toy.trialB] !! 0%nat = Some Toy.trialA ∧
  2 <= Z.of_nat (cols Toy.trialA) ∧
  computePLI [Toy.trialA; Toy.trialB] 2 "hanning"
  = computePLI [Toy.trialA; Toy.trialB] 4 "hanning" ∧
  phaseLagIndex [Toy.trialA; Toy.trialB] [] 2 "hanning"
  = phaseLagIndex [Toy.trialA; Toy.trialB] [] 4 "hanning".
Proof.
  assert (H1 : [Toy.trialA; Toy.trialB] !! 0%nat = Some Toy.trialA)
    by reflexivity.
  assert (H2 : 2 <= Z.of_nat (cols Toy.trialA)) by (cbn; lia).
  split; [exact H1|]. split; [exact H2|].
  destruct (fft_length_floor [Toy.trialA; Toy.trialB] [] 2 "hanning"
              Toy.trialA H1 H2) as (Hc & _ & Hp & _).
  split; [exact Hc|exact Hp].
Defined.

Lemma computePLI_permutation_witness :
  [Toy.trialA; Toy.trialB] !! 0%nat = Some Toy.trialA ∧
  [Toy.trialB; Toy.trialA] ≡ₚ [Toy.trialA; Toy.trialB] ∧
  computePLI [Toy.trialB; Toy.trialA] 2 "hanning"
  = computePLI [Toy.trialA; Toy.trialB] 2 "hanning" ∧
  computeUnbiasedSquaredPLI [Toy.trialB; Toy.trialA] 2 "hanning"
  = computeUnbiasedSquaredPLI [Toy.trialA; Toy.trialB] 2 "hanning".
Proof.
  split; [reflexivity|].
  assert (Hperm : [Toy.trialB; Toy.trialA] ≡ₚ [Toy.trialA; Toy.trialB])
    by apply perm_swap.
  split; [exact Hperm|].
  exact (computePLI_permutation Toy.trialA Toy.trialB
           [Toy.trialA; Toy.trialB] [Toy.trialB; Toy.trialA] 2 "hanning"
           eq_refl Hperm eq_refl eq_refl eq_refl).
Defined.

Lemma computePLI_diagonal_witness :
  validRun Toy.trialA [Toy.trialA; Toy.trialB] 2 "hanning" ∧
  csdConjugate Toy.trialA [Toy.trialA; Toy.trialB] 2 "hanning" ∧
  ∃ v, computePLI [Toy.trialA; Toy.trialB] 2 "hanning" = Some v ∧
       entry v 1 1 2 = Some zero.
Proof.
  split; [exact Toy_run_two_trials|]. split; [apply Toy_csdConjugate|].
  destruct (computePLI_diagonal Toy.trialA [Toy.trialA; Toy.trialB] 2 "hanning"
              Toy_run_two_trials (Toy_csdConjugate _ _ _ _)) as (v & Hv & Hd).
  exists v. split; [exact Hv|]. apply Hd; in_range.
Defined.

Lemma Toy_consistent_sign :
  (∀ m z, m ∈ [Toy.trialA; Toy.trialB] →
     csdCoeff (generateTapers 4 "hanning") 4 m 0 1 2 = Some z →
     ltb zero (imag z) = true) ∨
  (∀ m z, m ∈ [Toy.trialA; Toy.trialB] →
     csdCoeff (generateTapers 4 "hanning") 4 m 0 1 2 = Some z →
     ltb (imag z) zero = true).
Proof.
  left. intros m z Hm Hz.
  apply elem_of_cons in Hm as [->|Hm];
    [|apply elem_of_cons in Hm as [->|Hm]; [|now apply elem_of_nil in Hm]];
    vm_compute in Hz; injection Hz as <-; vm_compute; reflexivity.
Qed.

Lemma computePLI_consistent_sign_witness :
  validRun Toy.trialA [Toy.trialA; Toy.trialB] 2 "hanning" ∧
  ∃ v, computePLI [Toy.trialA; Toy.trialB] 2 "hanning" = Some v ∧
       entry v 0 1 2 = Some one.
Proof.
  split; [exact Toy_run_two_trials|].
  apply (computePLI_consistent_sign Toy.trialA [Toy.trialA; Toy.trialB] 2
           "hanning" 0 1 2 Toy_run_two_trials);
    [in_range..|exact Toy_consistent_sign].
Defined.

Lemma computeUnbiasedSquaredPLI_consistent_sign_witness :
  validRun Toy.trialA [Toy.trialA; Toy.trialB] 2 "hanning" ∧
  (2 ≤ length [Toy.trialA; Toy.trialB])%nat ∧
  ∃ u, computeUnbiasedSquaredPLI [Toy.trialA; Toy.trialB] 2 "hanning" = Some u ∧
       entry u 0 1 2 = Some one.
Proof.
  split; [exact Toy_run_two_trials|]. split; [cbn; lia|].
  apply (computeUnbiasedSquaredPLI_consistent_sign Toy.trialA
           [Toy.trialA; Toy.trialB] 2 "hanning" 0 1 2 Toy_run_two_trials);
    [cbn; lia|in_range..|exact Toy_consistent_sign].
Defined.

Lemma computeUnbiasedSquaredPLI_bounds_witness :
  validRun Toy.trialA [Toy.trialA; Toy.trialB] 2 "hanning" ∧
  (2 ≤ length [Toy.trialA; Toy.trialB])%nat ∧
  ∃ u b,
    computeUnbiasedSquaredPLI [Toy.trialA; Toy.trialB] 2 "hanning" = Some u ∧
    entry u 0 0 1 = Some (Fin b) ∧ (- (1) <= b)%Qc ∧ (b <= 1)%Qc.
Proof.
  split; [exact Toy_run_two_trials|]. split; [cbn; lia|].
  destruct (computeUnbiasedSquaredPLI_bounds Toy.trialA
              [Toy.trialA; Toy.trialB] 2 "hanning" Toy_run_two_trials)
    as (u & Hu & Hentry); [cbn; lia|].
  destruct (Hentry 0%nat 0%nat 1%nat) as (b & H); [in_range..|].
  exists u, b. auto.
Defined.

Lemma network_edge_weights_witness :
  validRun Toy.trialA [Toy.trialA; Toy.trialB] 2 "hanning" ∧
  ∃ p a wp,
    computePLI [Toy.trialA; Toy.trialB] 2 "hanning" = Some p ∧
    phaseLagIndex [Toy.trialA; Toy.trialB] [] 2 "hanning" = Some a ∧
    (m ← p !! 1%nat; m !! 0%nat) = Some wp ∧
    netEdges a !! 2%nat = Some (mkEdge 1 0 wp).
Proof.
  split; [exact Toy_run_two_trials|].
  destruct (network_edge_weights Toy.trialA [Toy.trialA; Toy.trialB] [] 2
              "hanning" Toy_run_two_trials)
    as (p & u & a & b & Hp & _ & Ha & _ & Hedges).
  destruct (Hedges 1%nat 0%nat) as (wp & wu & Hwp & _ & He & _);
    [cbn; lia..|].
  exists p, a, wp. auto.
Defined.

Lemma node_position_supplied_witness :
  validRun Toy.trialA [Toy.trialA; Toy.trialB] 2 "hanning" ∧
  ∃ a b,
    phaseLagIndex [Toy.trialA; Toy.trialB] [(Toy.d 1, Toy.d 2, Toy.d 3)] 2
                  "hanning" = Some a ∧
    unbiasedSquaredPhaseLagIndex [Toy.trialA; Toy.trialB]
      [(Toy.d 1, Toy.d 2, Toy.d 3)] 2 "hanning" = Some b ∧
    nodeVert <$> netNodes a !! 0%nat = Some (Toy.d 1, Toy.d 2, Toy.d 3) ∧
    nodeVert <$> netNodes b !! 0%nat = Some (Toy.d 1, Toy.d 2, Toy.d 3).
Proof.
  split; [exact Toy_run_two_trials|].
  destruct (node_position_supplied Toy.trialA [Toy.trialA; Toy.trialB]
              [(Toy.d 1, Toy.d 2, Toy.d 3)] 2 "hanning" Toy_run_two_trials)
    as (a & b & Ha & Hb & Hpos).
  exists a, b. split; [exact Ha|]. split; [exact Hb|].
  apply Hpos; [cbn; lia|reflexivity].
Defined.

Lemma node_position_without_geometry_witness :
  validRun Toy.trialA [Toy.trialA; Toy.trialB] 2 "hanning" ∧
  ∃ a b,
    phaseLagIndex [Toy.trialA; Toy.trialB] [] 2 "hanning" = Some a ∧
    unbiasedSquaredPhaseLagIndex [Toy.trialA; Toy.trialB] [] 2 "hanning"
    = Some b ∧
    map nodeVert (netNodes a) = [zeroVert; zeroVert] ∧
    map nodeVert (netNodes b) = [zeroVert; zeroVert].
Proof.
  split; [exact Toy_run_two_trials|].
  exact (node_position_without_geometry Toy.trialA [Toy.trialA; Toy.trialB]
           2 "hanning" Toy_run_two_trials).
Defined.

Lemma computePLI_quantised_witness :
  validRun Toy.trialA [Toy.trialA; Toy.trialB] 2 "hanning" ∧
  ∃ v n, computePLI [Toy.trialA; Toy.trialB] 2 "hanning" = Some v ∧
         0 <= n <= 2 ∧ entry v 0 1 2 = Some (div (of_Z n) (of_Z 2)).
Proof.
  split; [exact Toy_run_two_trials|].
  destruct (computePLI_quantised Toy.trialA [Toy.trialA; Toy.trialB] 2
              "hanning" Toy_run_two_trials) as (v & Hv & Hentry).
  destruct (Hentry 0%nat 1%nat 2%nat) as (n & Hn & He); [in_range..|].
  exists v, n. auto.
Defined.

End MoreExamples.
